(** * vlog: leveled logging with per-package levels and a rotating file sink

    A shallow embedding of the Go package [vlog] (the level registry of
    vlog.go and the size-rotated logger of rotate_log.go), followed by the
    properties of the level-resolution procedure, of registration, of the
    configuration parser and of rotation.

    Conventions of the embedding.
    - A Go [string] is a sequence of bytes: [string] of the standard
      library, one [ascii] per byte.  Go's [<] on strings is the bytewise
      lexicographic order, here [String.le].
    - A Go [int] that holds an index or a length is a [Z]; [Index] returns
      [-1] for "not found" as in Go.
    - [map[string]Level] is [gmap string Level]; reading a missing key
      gives the zero value [info].
    - [levelVars] is a slice of pointers to cells that only ever grows at
      its end: a [*Level] handed out by [newVar] is the index of its cell.
    - [lg.Log], [panic] and the mutation of [levelVars] are effects of a
      small monad [M] over the registry state. *)

From Stdlib Require Import ZArith Ascii String.
From stdpp Require Import base tactics option list gmap strings sorting pretty.

Local Open Scope Z_scope.

(** ** Package [strings]: the functions the source calls *)

Module Strings.

(** [len(s)] *)
Definition len (s : string) : Z := Z.of_nat (String.length s).

(** [s[:hi]] and [s[lo:]]; every call site of the source slices within
    bounds (see [parseFlag_prefix_keys] for the one that depends on the
    data). *)
Fixpoint takeb (n : nat) (s : string) : string :=
  match n, s with
  | S n', String c s' => String c (takeb n' s')
  | _, _ => ""
  end.

Fixpoint dropb (n : nat) (s : string) : string :=
  match n, s with
  | S n', String _ s' => dropb n' s'
  | _, _ => s
  end.

Definition sliceTo (s : string) (hi : Z) : string := takeb (Z.to_nat hi) s.
Definition sliceFrom (s : string) (lo : Z) : string := dropb (Z.to_nat lo) s.

(** [strings.HasPrefix(s, prefix)] *)
Fixpoint HasPrefix (s prefix : string) {struct prefix} : bool :=
  match prefix, s with
  | "", _ => true
  | String a p, String b s' => Ascii.eqb a b && HasPrefix s' p
  | String _ _, "" => false
  end.

(** [strings.HasSuffix(s, suffix)]:
    [len(s) >= len(suffix) && s[len(s)-len(suffix):] == suffix] *)
Definition HasSuffix (s suffix : string) : bool :=
  (len suffix <=? len s) && String.eqb (sliceFrom s (len s - len suffix)) suffix.

(** [strings.Index(s, substr)]: the first position where [substr]
    occurs in [s], or [-1]. *)
Fixpoint Index (s substr : string) : Z :=
  if HasPrefix s substr then 0
  else match s with
       | "" => -1
       | String _ s' => let i := Index s' substr in
                        if i <? 0 then -1 else i + 1
       end.

(** [strings.Contains(s, substr)] is [Index(s, substr) >= 0]. *)
Definition Contains (s substr : string) : bool := 0 <=? Index s substr.

(** Whether the byte [c] occurs in [s] ([strings.IndexByte(s, c) >= 0]). *)
Fixpoint hasByte (c : ascii) (s : string) : bool :=
  match s with
  | "" => false
  | String d s' => Ascii.eqb c d || hasByte c s'
  end.

(** [strings.TrimRight(s, cutset)]: [s] without its longest suffix made
    of bytes of [cutset]. *)
Fixpoint TrimRight (s cutset : string) : string :=
  match s with
  | "" => ""
  | String c s' =>
      match TrimRight s' cutset with
      | "" => if hasByte c cutset then "" else String c ""
      | t => String c t
      end
  end.

(** Text in ASCII: every byte is below 128. *)
Fixpoint isASCII (s : string) : bool :=
  match s with
  | "" => true
  | String c s' => (N_of_ascii c <? 128)%N && isASCII s'
  end.

(** [strings.ToLower] on one byte and on a string: the letters [A]..[Z]
    become [a]..[z].  This is what Go does on ASCII text ([isASCII]), the
    text the rule language is made of; beyond ASCII, Go maps the upper
    case letters of Unicode as well, which is not modelled. *)
Definition lowerByte (c : ascii) : ascii :=
  let n := N_of_ascii c in
  if ((65 <=? n) && (n <=? 90))%N then ascii_of_N (n + 32) else c.

Fixpoint ToLower (s : string) : string :=
  match s with
  | "" => ""
  | String c s' => String (lowerByte c) (ToLower s')
  end.

End Strings.

Import Strings.

(** ** vlog.go: levels *)

(** [type Level int32] with the constants [v2 = -2], [v1], [info], [err].
    Every value the registry stores comes from [parseLevel], from [Vset]
    (which stores [v2] or [v1] only) or is the zero value, so the four
    constants are all the levels there are. *)
Inductive Level : Set := v2 | v1 | info | err.

Definition LevelZ (l : Level) : Z :=
  match l with v2 => -2 | v1 => -1 | info => 0 | err => 1 end.

Definition LevelOfZ (z : Z) : option Level :=
  match z with
  | -2 => Some v2
  | -1 => Some v1
  | 0 => Some info
  | 1 => Some err
  | _ => None
  end.

#[global] Instance Level_eq_dec : EqDecision Level.
Proof. solve_decision. Defined.

(** The zero value of [Level] is [info]: what a missing map key reads as
    and what a freshly allocated [levelVar] holds. *)
#[global] Instance Level_inhabited : Inhabited Level := populate info.

(** Modelled from the spec: [Level.String], which [go generate] writes
    with [stringer -type=Level] into a file that is not among the sources.
    The spec's export format and [TestSetLevels] fix the four names. *)
Definition Level_String (l : Level) : string :=
  match l with v2 => "v2" | v1 => "v1" | info => "info" | err => "err" end.

(** [type levelVar struct { Name, File string; Level Level }] *)
Record levelVar : Set := mkLevelVar {
  Name : string;
  File : string;
  Level' : Level;
}.

Definition setLevel (lv : levelVar) (l : Level) : levelVar :=
  {| Name := Name lv; File := File lv; Level' := l |}.

(** The package state: the slice [levelVars] (cell 0 is the default
    level) and the lines handed to [lg.Log], oldest first. *)
Record state : Type := mkState {
  levelVars : list levelVar;
  lg : list string;
}.

(** [var levelVars = []*levelVar{&levelVar{}}] *)
Definition init : state :=
  {| levelVars := [ {| Name := ""; File := ""; Level' := info |} ]; lg := [] |}.


(** ** Effects *)

Inductive outcome (A : Type) : Type :=
| Done (a : A)
| Panic (msg : string)
| OutOfFuel.
Arguments Done {A} a.
Arguments Panic {A} msg.
Arguments OutOfFuel {A}.

(** A computation over a state [S]: it ends with a value, with a panic
    or out of fuel, and leaves a state behind in each case. *)
Definition ST (S A : Type) : Type := S → outcome A * S.

#[global] Instance ST_ret {S} : MRet (ST S) := λ A a st, (Done a, st).
#[global] Instance ST_bind {S} : MBind (ST S) := λ A B f m st,
  match m st with
  | (Done a, st') => f a st'
  | (Panic msg, st') => (Panic msg, st')
  | (OutOfFuel, st') => (OutOfFuel, st')
  end.

Definition panic {S A} (msg : string) : ST S A := λ st, (Panic msg, st).
Definition diverge {S A} : ST S A := λ st, (OutOfFuel, st).

Abbreviation M := (ST state).
Definition lg_Log (s : string) : M unit :=
  λ st, (Done (), {| levelVars := levelVars st; lg := lg st ++ [s] |}).
Definition getLevelVars : M (list levelVar) := λ st, (Done (levelVars st), st).
Definition putLevelVars (vars : list levelVar) : M unit :=
  λ st, (Done (), {| levelVars := vars; lg := lg st |}).

(** ** stringer.go: [Format] on string arguments *)

Fixpoint joinSpace (args : list string) : string :=
  match args with
  | [] => ""
  | [a] => a
  | a :: rest => a +:+ " " +:+ joinSpace rest
  end.

(** [fmt.Sprintf] for the verb [%s] with string operands, the only verb
    and operands at the call sites below. *)
Fixpoint Sprintf (sfmt : string) (args : list string) : string :=
  match sfmt with
  | "" => ""
  | String c rest =>
      match rest with
      | String d rest' =>
          if Ascii.eqb c "%" && Ascii.eqb d "s" then
            match args with
            | a :: args' => a +:+ Sprintf rest' args'
            | [] => "%!s(MISSING)" +:+ Sprintf rest' []
            end
          else String c (Sprintf rest args)
      | "" => String c ""
      end
  end.

(** [Format(args...)]: a single string is returned as it is; without a
    [%] in the first argument the arguments are joined by [Sprintln]
    (spaces between operands, the final newline trimmed); otherwise
    [Sprintf]. *)
Definition Format (args : list string) : string :=
  match args with
  | [] => ""
  | [sfmt] => sfmt
  | sfmt :: rest =>
      if Index sfmt "%" =? -1 then joinSpace args else Sprintf sfmt rest
  end.

(** ** vlog.go: [parseLevel] *)

Definition parseLevel (lvs : string) : M Level :=
  let l := ToLower lvs in
  if String.eqb l "2" || String.eqb l "v2" then mret v2
  else if String.eqb l "1" || String.eqb l "v1" then mret v1
  else if String.eqb l "i" || String.eqb l "info" then mret info
  else if String.eqb l "e" || String.eqb l "err" then mret err
  else lg_Log (Format ["ignore invalid logging level=%s"; lvs]);; mret info.

(** ** vlog.go: [parseFlag] *)

Abbreviation levelMap := (gmap string Level).

(** The head of the loop body: the next rule [k] is cut off [s] at the
    first comma. *)
Definition nextRule (s : string) : string * string :=
  let i := Index s "," in
  if 0 <=? i then (sliceTo s i, sliceFrom s (i + 1)) else (s, "").

(** The rest of the loop body: the rule [k] is split at its first [=],
    its level parsed, its name put in lower case and checked for
    wildcards, and the rule is recorded in [exact] or in [prefix].  [s] is
    what is left of the flag after [k]; it shows up in the panic
    messages. *)
Definition parseFlag_rule (value k s : string) (exact prefix : levelMap)
  : M (string * levelMap * levelMap) :=
  let j := Index k "=" in
  if j <? 0 then panic (Format ["malformed: no level"; value])
  else
    let '(k, v) := (sliceTo k j, sliceFrom k (j + 1)) in
    lv ← parseLevel v;
    let k := ToLower k in
    if String.eqb k "*" || HasSuffix k "/*" then
      let k := sliceTo k (len k - 1) in
      if Contains k "*" then panic (Format ["malformed: multiple star"; s])
      else
        let k := TrimRight k "/" in
        mret (s, exact, <[k +:+ "/" := lv]> prefix)
    else if Contains k "*" then panic (Format ["malformed: star in middle"; s])
    else
      let k := TrimRight k "/" in
      mret (s, <[k := lv]> exact, prefix).

(** One turn of the loop [for s != ""] of [parseFlag]. *)
Definition parseFlag_body (value s : string) (exact prefix : levelMap)
  : M (string * levelMap * levelMap) :=
  let '(k, s) := nextRule s in
  parseFlag_rule value k s exact prefix.

(** The loop itself.  Every turn shortens [s], so [len(value)] turns are
    enough ([parseFlag_loop_fuel]); [fuel] only makes the recursion
    structural. *)
Fixpoint parseFlag_loop (fuel : nat) (value s : string) (exact prefix : levelMap)
  : M (levelMap * levelMap) :=
  if String.eqb s "" then mret (exact, prefix)
  else match fuel with
       | O => diverge
       | S fuel' =>
           '(s', exact', prefix') ← parseFlag_body value s exact prefix;
           parseFlag_loop fuel' value s' exact' prefix'
       end.

Definition parseFlag (value : string) : M (levelMap * levelMap) :=
  parseFlag_loop (String.length value) value value ∅ ∅.

(** ** vlog.go: [newVar], [Vset], reading a level *)

(** [for _, lv := range levelVars { if lv.Name == name { ... } }]: the
    index of the first cell called [name]. *)
Fixpoint findName (vars : list levelVar) (name : string) : option nat :=
  match vars with
  | [] => None
  | lv :: rest =>
      if String.eqb (Name lv) name then Some O
      else S <$> findName rest name
  end.

(** [newVar] returns the pointer [&lv.Level] of a cell, here its index;
    [&levelVars[0].Level] needs the cell 0 to be there. *)
Definition newVar (name fn : string) : M nat :=
  if String.eqb name "" then
    lg_Log (Format ["fail to infer name from file=%s"; fn]);;
    vars ← getLevelVars;
    match vars with
    | [] => panic "index out of range"
    | _ :: _ => mret O
    end
  else
    vars ← getLevelVars;
    match findName vars name with
    | Some i =>
        lg_Log (Format ["dup level name=%s inferred from file=%s"; name; fn]);;
        mret i
    | None =>
        let lv := {| Name := name; File := fn; Level' := info |} in
        putLevelVars (vars ++ [lv]);;
        mret (length vars)
    end.

(** [*v] for a handle [v]; a handle that [newVar] returned always points
    into [levelVars]. *)
Definition load (v : nat) (st : state) : option Level :=
  Level' <$> levelVars st !! v.

(** [atomic.StoreInt32] through the handle [v] *)
Definition store (v : nat) (l : Level) : M unit :=
  vars ← getLevelVars;
  putLevelVars (alter (λ lv, setLevel lv l) v vars).

(** [Level.Vset]: [l] is 1 or 2, anything else is refused with a
    diagnostic ([%d] prints [l] in decimal). *)
Definition Vset (v : nat) (l : Z) : M (option Level) :=
  let lv := - l in
  vars ← getLevelVars;
  let old := Level' <$> vars !! v in
  if (lv <? LevelZ v2) || (LevelZ info <=? lv) then
    lg_Log ("invalid verbose level=" +:+ pretty l);;
    mret old
  else
    match LevelOfZ lv with
    | Some l' => store v l';; mret old
    | None => mret old
    end.

(** ** vlog.go: [setLevels] *)

(** The test of the inner loop:
    [lv.Name == k[:len(k)-1] || strings.HasPrefix(lv.Name, k)] *)
Definition prefixMatch (name k : string) : bool :=
  String.eqb name (sliceTo k (len k - 1)) || HasPrefix name k.

(** [for i := len(prefixes) - 1; i >= 0; i-- { ... break }] for one cell;
    [n] is [i + 1]. *)
Fixpoint scanPrefixes (prefixes : list string) (prefix : levelMap)
    (lv : levelVar) (n : nat) : levelVar :=
  match n with
  | O => lv
  | S i =>
      let k := prefixes !!! i in
      if prefixMatch (Name lv) k then setLevel lv (prefix !!! k)
      else scanPrefixes prefixes prefix lv i
  end.

(** [for k := range prefix { prefixes = append(prefixes, k) };
    sort.Strings(prefixes)].  Go ranges over a map in no fixed order; the
    keys are distinct, so the sorted slice does not depend on it. *)
Definition sortedPrefixes (prefix : levelMap) : list string :=
  merge_sort String.le (map_to_list prefix).*1.

Definition setLevels (value : string) : M unit :=
  '(exact, prefix) ← parseFlag value;
  vars ← getLevelVars;
  match vars with
  | [] => panic "index out of range"
  | root :: rest =>
      let root := match prefix !! "/" with
                  | Some v => setLevel root v
                  | None => root
                  end in
      let def := Level' root in
      let rest := (λ lv, setLevel lv def) <$> rest in
      let rest :=
        if (0 <? Z.of_nat (size prefix)) then
          let prefixes := sortedPrefixes prefix in
          (λ lv, scanPrefixes prefixes prefix lv (length prefixes)) <$> rest
        else rest in
      let rest :=
        (λ lv, match exact !! Name lv with
               | Some i => setLevel lv i
               | None => lv
               end) <$> rest in
      putLevelVars (root :: rest)
  end.

(** ** vlog.go: [printLevelVars] *)

Fixpoint printRest (vars : list levelVar) : string :=
  match vars with
  | [] => ""
  | lv :: rest => "," +:+ Name lv +:+ "=" +:+ Level_String (Level' lv) +:+ printRest rest
  end.

Definition printLevelVars : M string :=
  vars ← getLevelVars;
  match vars with
  | [] => panic "index out of range"
  | root :: rest => mret ("*=" +:+ Level_String (Level' root) +:+ printRest rest)
  end.

(** The levels of all cells, the default first. *)
Definition levels (st : state) : list Level := Level' <$> levelVars st.

(** ** rotate_log.go *)

Module RotateLog.

(** Go's [int] on a 64-bit platform, with its wrap-around. *)
Definition intSize : Z := 64.
Definition maxInt : Z := 2 ^ (intSize - 1) - 1.
Definition minInt : Z := - 2 ^ (intSize - 1).
Definition wrap (z : Z) : Z := (z - minInt) `mod` 2 ^ intSize + minInt.

(** [type rotateLogger struct].  The mutex is left out (one call at a
    time).  A log file is named after [prefix], the time of its creation
    and [nextID]; it is identified here by the sequence number in its
    name.  [f] is the sequence number of the open file ([None] for
    [nil]); [files] are the log files on disk with the lines written to
    each through [wr] and [lg]. *)
Record rotateLogger : Type := mkRotateLogger {
  prefix : string;
  nbytes : Z;
  nextID : Z;
  f : option Z;
  files : gmap Z (list string);
}.

Section Log.
(** [var logPrefixSize = 50], [var logLimit = 1 << 30]: package
    variables (the test lowers [logLimit]). *)
Variables logPrefixSize logLimit : Z.
(** Whether [os.Create] succeeds for the file with a given sequence
    number. *)
Variable os_Create : Z → bool.

Definition setNbytes (n : Z) : ST rotateLogger unit := λ rl,
  (Done (), {| prefix := prefix rl; nbytes := n; nextID := nextID rl;
               f := f rl; files := files rl |}).

Definition get : ST rotateLogger rotateLogger := λ rl, (Done rl, rl).

(** [rl.rotate()]: [os.Create] makes the file anew (an existing file
    of that name is truncated); when it fails, [rotate] panics (the
    message, here without the file name and the error, is not used). *)
Definition rotate : ST rotateLogger unit := λ rl,
  let id := nextID rl in
  if os_Create id then
    (Done (), {| prefix := prefix rl; nbytes := 0; nextID := wrap (id + 1);
                 f := Some id; files := <[id := []]> (files rl) |})
  else (Panic "create log file", rl).

(** [rl.lg.Output(3, s)]: one more line in the open file. *)
Definition Output (s : string) : ST rotateLogger unit := λ rl,
  match f rl with
  | Some id =>
      (Done (), {| prefix := prefix rl; nbytes := nbytes rl; nextID := nextID rl;
                   f := f rl;
                   files := <[id := files rl !!! id ++ [s]]> (files rl) |})
  | None => (Panic "nil pointer dereference", rl)
  end.

(** The loop [for { ... }] of [Log]; [fuel] bounds its turns. *)
Fixpoint Log_loop (fuel : nat) (s : string) : ST rotateLogger unit :=
  match fuel with
  | O => diverge
  | S fuel' =>
      rl ← get;
      let checklimit := 0 <? nbytes rl in
      setNbytes (wrap (nbytes rl + wrap (logPrefixSize + len s)));;
      rl ← get;
      if checklimit && (logLimit <? nbytes rl) then
        rotate;; Log_loop fuel' s
      else Output s
  end.

(** [rl.Log(s)]; two turns are all the loop ever takes
    ([Log_loop_two_turns]). *)
Definition Log (s : string) : ST rotateLogger unit := Log_loop 2 s.

(** [newRotateLogger(prefix)] *)
Definition newRotateLogger (pfx : string) : outcome unit * rotateLogger :=
  rotate {| prefix := pfx; nbytes := 0; nextID := 0; f := None; files := ∅ |}.

(** [Log] for each line of a list, in order. *)
Fixpoint LogAll (lines : list string) : ST rotateLogger unit :=
  match lines with
  | [] => mret ()
  | s :: rest => Log s;; LogAll rest
  end.

End Log.

End RotateLog.

(** ** Vocabulary of the statements *)

(** The rules of a configuration string [rule(,rule)*], in the order in
    which [parseFlag] meets them: the pieces between the commas; a final
    comma ends the last rule and starts none. *)
Fixpoint rulesOf (s : string) : list string :=
  match s with
  | "" => []
  | String c s' =>
      if Ascii.eqb c "," then "" :: rulesOf s'
      else match rulesOf s' with
           | [] => [String c ""]
           | k :: rest => String c k :: rest
           end
  end.

(** A rule without [=]. *)
Definition noLevel (r : string) : Prop := hasByte "=" r = false.

(** A [*] in a name that is neither the whole name nor the end of a
    final [/*]. *)
Definition strayStar (name : string) : Prop :=
  ∃ a b, name = a +:+ "*" +:+ b ∧
         ¬ (b = "" ∧ (a = "" ∨ ∃ a', a = a' +:+ "/")).

(** A name of two or more [*]. *)
Definition multipleStars (name : string) : Prop :=
  ∃ a b c, name = a +:+ "*" +:+ b +:+ "*" +:+ c.

(** A malformed rule: no [=], or a name (the text before the first [=])
    with a misplaced or a repeated wildcard. *)
Definition malformed (r : string) : Prop :=
  noLevel r ∨
  ∃ name v, r = name +:+ "=" +:+ v ∧ hasByte "=" name = false ∧
            (strayStar name ∨ multipleStars name).

(** The level tokens of the rule language, compared without case. *)
Definition levelTokens : list string :=
  ["2"; "v2"; "1"; "v1"; "i"; "info"; "e"; "err"].

Definition knownToken (tok : string) : bool :=
  bool_decide (ToLower tok ∈ levelTokens).

(** The level a token stands for; [info] for a token that is not known. *)
Definition tokenLevel (tok : string) : Level :=
  let l := ToLower tok in
  if bool_decide (l ∈ ["2"; "v2"]) then v2
  else if bool_decide (l ∈ ["1"; "v1"]) then v1
  else if bool_decide (l ∈ ["e"; "err"]) then err
  else info.

(** The state after the line [msg] went to [lg.Log]. *)
Definition logged (msg : string) (st : state) : state :=
  {| levelVars := levelVars st; lg := lg st ++ [msg] |}.

(** The state after [parseLevel] saw the token [tok]. *)
Definition afterToken (tok : string) (st : state) : state :=
  if knownToken tok then st
  else logged (Format ["ignore invalid logging level=%s"; tok]) st.

(** What [parseFlag] records for a rule [name=lv] with a well-placed
    wildcard or none: the map it goes to and the key. *)
Definition isPrefixName (k : string) : bool :=
  String.eqb k "*" || HasSuffix k "/*".

Definition record (name : string) (lv : Level) (maps : levelMap * levelMap)
  : levelMap * levelMap :=
  let k := ToLower name in
  if isPrefixName k
  then (maps.1, <[TrimRight (sliceTo k (len k - 1)) "/" +:+ "/" := lv]> maps.2)
  else (<[TrimRight k "/" := lv]> maps.1, maps.2).

(** A name with a well-placed wildcard or none. *)
Definition wildcardOK (name : string) : bool :=
  let k := ToLower name in
  if isPrefixName k then negb (hasByte "*" (sliceTo k (len k - 1)))
  else negb (hasByte "*" k).

(** The order in which the inner loop of [setLevels] visits the
    prefixes: from the last of the sorted slice to the first. *)
Definition scanOrder (prefix : levelMap) : list string :=
  reverse (sortedPrefixes prefix).

(** The resolution procedure as the spec words it: the exact rule if
    there is one, else the first matching prefix in scan order, else the
    default. *)
Definition resolve (def : Level) (exact prefix : levelMap) (name : string) : Level :=
  match exact !! name with
  | Some l => l
  | None =>
      match List.find (prefixMatch name) (scanOrder prefix) with
      | Some k => prefix !!! k
      | None => def
      end
  end.

(** The registry states that calls of [newVar] (Register) and
    [setLevels] (Configure) lead to. *)
Inductive Reachable : state → Prop :=
| Reachable_init : Reachable init
| Reachable_newVar name fn st :
    Reachable st → Reachable (newVar name fn st).2
| Reachable_setLevels value st :
    Reachable st → Reachable (setLevels value st).2.

(** The shape of the registry: the default cell, named [""], then cells
    with distinct non-empty names. *)
Definition wfRegistry (vars : list levelVar) : Prop :=
  ∃ root rest, vars = root :: rest ∧ Name root = "" ∧
               NoDup (Name <$> rest) ∧ "" ∉ (Name <$> rest).

(** A name that the rule language can spell as an exact rule: in ASCII
    and in lower case, without [,], [=] or [*], and without a final [/]. *)
Definition exportable (name : string) : bool :=
  isASCII name && String.eqb (ToLower name) name &&
  negb (hasByte "," name) && negb (hasByte "=" name) && negb (hasByte "*" name) &&
  String.eqb (TrimRight name "/") name.

(** What [printLevelVars] prints for a list of cells without the comma in
    front, and the exact rules it spells. *)
Definition printTail (vars : list levelVar) : string :=
  match vars with
  | [] => ""
  | lv :: rest => Name lv +:+ "=" +:+ Level_String (Level' lv) +:+ printRest rest
  end.

Definition exactRules (exact : levelMap) (vars : list levelVar) : levelMap :=
  foldl (λ e lv, <[Name lv := Level' lv]> e) exact vars.

(** [Export] then [Configure]: [setLevels(printLevelVars())]. *)
Definition roundTrip : M unit := s ← printLevelVars; setLevels s.

(** A slice of strings in strictly descending order: each string is
    greater, bytewise, than all that come after it. *)
Definition descending (l : list string) : Prop :=
  StronglySorted (λ x y, String.le y x ∧ x ≠ y) l.

(** [newVar(n, "")] for each name of a list, as the tests register their
    cells. *)
Fixpoint registerAll (names : list string) : M unit :=
  match names with
  | [] => mret ()
  | n :: rest => newVar n "";; registerAll rest
  end.

(** A registry of three cells and a prefix map, for the examples. *)
Definition abRegistry : state := (registerAll ["a"; "a/b"; "ab"] init).2.

Definition abPrefix : levelMap := <["/" := err]> (<["a/" := v1]> {["a/b/" := v2]}).

(** The levels read through a list of handles. *)
Definition loadAll (vs : list nat) : M (list (option Level)) :=
  λ st, (Done ((λ v, load v st) <$> vs), st).

(** The names and levels of all cells, the default first. *)
Definition named (st : state) : list (string * Level) :=
  (λ lv, (Name lv, Level' lv)) <$> levelVars st.

(** [n] zero bytes: [string(make([]byte, n))]. *)
Fixpoint zeros (n : nat) : string :=
  match n with
  | O => ""
  | S n' => String "000" (zeros n')
  end.

(** The logger with another byte count. *)
Definition withNbytes (n : Z) (rl : RotateLog.rotateLogger) : RotateLog.rotateLogger :=
  {| RotateLog.prefix := RotateLog.prefix rl; RotateLog.nbytes := n;
     RotateLog.nextID := RotateLog.nextID rl; RotateLog.f := RotateLog.f rl;
     RotateLog.files := RotateLog.files rl |}.

(** The logger after a rotation and the write of [s]: the file [id] is
    new and holds [s] alone, [n] bytes are counted, [next] is the next
    sequence number. *)
Definition rotatedWith (id n next : Z) (s : string) (rl : RotateLog.rotateLogger)
  : RotateLog.rotateLogger :=
  {| RotateLog.prefix := RotateLog.prefix rl; RotateLog.nbytes := n;
     RotateLog.nextID := next; RotateLog.f := Some id;
     RotateLog.files := <[id := [s]]> (RotateLog.files rl) |}.

(** The write of [s] to the open file, or the panic of a logger without
    one; [n] bytes are counted. *)
Definition writtenWith (n : Z) (s : string) (rl : RotateLog.rotateLogger)
  : outcome unit * RotateLog.rotateLogger :=
  match RotateLog.f rl with
  | Some id =>
      (Done (),
       {| RotateLog.prefix := RotateLog.prefix rl; RotateLog.nbytes := n;
          RotateLog.nextID := RotateLog.nextID rl; RotateLog.f := RotateLog.f rl;
          RotateLog.files :=
            <[id := RotateLog.files rl !!! id ++ [s]]> (RotateLog.files rl) |})
  | None => (Panic "nil pointer dereference", withNbytes n rl)
  end.

(** [Log] unrolled, in the arithmetic of [int]: one check of the limit,
    at most one rotation, one write. *)
Definition LogUnrolled (logPrefixSize logLimit : Z) (os_Create : Z → bool)
    (s : string) (rl : RotateLog.rotateLogger) : outcome unit * RotateLog.rotateLogger :=
  let incoming := RotateLog.wrap (logPrefixSize + len s) in
  let n := RotateLog.wrap (RotateLog.nbytes rl + incoming) in
  if (0 <? RotateLog.nbytes rl) && (logLimit <? n) then
    if os_Create (RotateLog.nextID rl) then
      (Done (),
       rotatedWith (RotateLog.nextID rl) (RotateLog.wrap (0 + incoming))
         (RotateLog.wrap (RotateLog.nextID rl + 1)) s rl)
    else (Panic "create log file", withNbytes n rl)
  else writtenWith n s rl.

(** The transition of the rotating sink as the spec words it, over the
    integers: with [incoming = fixedPerRecordOverhead + len(line)], rotate
    if [bytesWritten > 0] and [bytesWritten + incoming > maxBytesPerFile]
    (the sequence number goes up by 1, [bytesWritten] back to 0), then
    write the line and add [incoming] to [bytesWritten]. *)
Definition LogSpec (fixedPerRecordOverhead maxBytesPerFile : Z) (os_Create : Z → bool)
    (line : string) (rl : RotateLog.rotateLogger) : outcome unit * RotateLog.rotateLogger :=
  let incoming := fixedPerRecordOverhead + len line in
  let bytesWritten := RotateLog.nbytes rl in
  let sequenceID := RotateLog.nextID rl in
  if (0 <? bytesWritten) && (maxBytesPerFile <? bytesWritten + incoming) then
    if os_Create sequenceID then
      (Done (), rotatedWith sequenceID (0 + incoming) (sequenceID + 1) line rl)
    else (Panic "create log file", withNbytes (bytesWritten + incoming) rl)
  else writtenWith (bytesWritten + incoming) line rl.

(** [TestRotateLogger]: a fresh logger with [logLimit = 180] and
    [logPrefixSize = 50] logs ["a"] and ["bc"], then 128 zero bytes and
    ["def"]; [os.Create] succeeds throughout. *)
Definition testRun : (outcome unit * RotateLog.rotateLogger)
                     * (outcome unit * RotateLog.rotateLogger)
                     * (outcome unit * RotateLog.rotateLogger) :=
  let r0 := RotateLog.newRotateLogger (λ _, true) "/tmp/rotate_log_test" in
  let r1 := RotateLog.LogAll 50 180 (λ _, true) ["a"; "bc"] r0.2 in
  let r2 := RotateLog.LogAll 50 180 (λ _, true) [zeros 128; "def"] r1.2 in
  (r0, r1, r2).

(** ** vlog.go: the logging methods of [Level] and [On] *)

(** [*v] as a step of [M]; a [*Level] that points to no cell is [nil]. *)
Definition deref (v : nat) : M Level := λ st,
  match load v st with
  | Some l => (Done l, st)
  | None => (Panic "nil pointer dereference", st)
  end.

(** [(v *Level) E(args...)] *)
Definition Level_E (v : nat) (args : list string) : M unit :=
  l ← deref v;
  if LevelZ l <=? LevelZ err then lg_Log ("E " +:+ Format args) else mret ().

(** [(v *Level) I(args...)] *)
Definition Level_I (v : nat) (args : list string) : M unit :=
  l ← deref v;
  if LevelZ l <=? LevelZ info then lg_Log (Format args) else mret ().

(** [(v *Level) V1(args...)] *)
Definition Level_V1 (v : nat) (args : list string) : M unit :=
  l ← deref v;
  if LevelZ l <=? LevelZ v1 then lg_Log (Format args) else mret ().

(** [(v *Level) V2(args...)] *)
Definition Level_V2 (v : nat) (args : list string) : M unit :=
  l ← deref v;
  if LevelZ l <=? LevelZ v2 then lg_Log (Format args) else mret ().

(** [(v *Level) Vstack(args...)]; [stackTrace] is what the Go runtime
    makes of the message and the stack of the caller. *)
Definition Level_Vstack (stackTrace : string → string) (v : nat) (args : list string)
  : M unit :=
  l ← deref v;
  if LevelZ info <=? LevelZ l then mret ()
  else lg_Log (stackTrace (Format args)).

(** The conversion of an [int] to [int32], as in [Level(-l)]. *)
Definition toInt32 (z : Z) : Z := (z + 2 ^ 31) `mod` 2 ^ 32 - 2 ^ 31.

(** [(v *Level) On(l)]: [lv := Level(-l); return *v <= lv] *)
Definition Level_On (v : nat) (l : Z) : M bool :=
  cur ← deref v;
  mret (LevelZ cur <=? toInt32 (- l)).

(** [ParseEnv] for the value [val] of the variable [GO_VLOG]. *)
Definition ParseEnv (val : string) : M unit :=
  if negb (String.eqb val "") then
    setLevels val;;
    s ← printLevelVars;
    lg_Log s
  else mret ().

(** ** Vocabulary of the further statements *)

(** What identifies a cell: its name and the file it was made for. *)
Definition cellIdent (lv : levelVar) : string * string := (Name lv, File lv).

(** The calls of the package that work on the registry. *)
Inductive call : Type :=
| Call_newVar (name fn : string)
| Call_setLevels (value : string)
| Call_ParseEnv (val : string)
| Call_Vset (v : nat) (l : Z)
| Call_On (v : nat) (l : Z)
| Call_E (v : nat) (args : list string)
| Call_I (v : nat) (args : list string)
| Call_V1 (v : nat) (args : list string)
| Call_V2 (v : nat) (args : list string).

(** The state a call leaves, whatever it returns and also when it
    panics. *)
Definition runCall (c : call) (st : state) : state :=
  match c with
  | Call_newVar name fn => (newVar name fn st).2
  | Call_setLevels value => (setLevels value st).2
  | Call_ParseEnv val => (ParseEnv val st).2
  | Call_Vset v l => (Vset v l st).2
  | Call_On v l => (Level_On v l st).2
  | Call_E v args => (Level_E v args st).2
  | Call_I v args => (Level_I v args st).2
  | Call_V1 v args => (Level_V1 v args st).2
  | Call_V2 v args => (Level_V2 v args st).2
  end.

Definition runCalls (cs : list call) (st : state) : state :=
  foldl (λ st c, runCall c st) st cs.

(** The name of a rule (the text before its first [=]) and its level
    token (the text after it). *)
Definition nameOf (r : string) : string := sliceTo r (Index r "=").
Definition tokOf (r : string) : string := sliceFrom r (Index r "=" + 1).

(** A rule that [parseFlag] accepts. *)
Definition ruleOK (r : string) : bool := hasByte "=" r && wildcardOK (nameOf r).

(** What an accepted rule adds to the two maps and to the log. *)
Definition recordRule (maps : levelMap * levelMap) (r : string) : levelMap * levelMap :=
  record (nameOf r) (tokenLevel (tokOf r)) maps.

Definition logRule (st : state) (r : string) : state := afterToken (tokOf r) st.

(** The entry of the two maps that a rule called [name] writes. *)
Definition ruleEntry (name : string) (maps : levelMap * levelMap) : option Level :=
  let k := ToLower name in
  if isPrefixName k then maps.2 !! (TrimRight (sliceTo k (len k - 1)) "/" +:+ "/")
  else maps.1 !! TrimRight k "/".

(** The lines of all log files, in the order of the sequence numbers. *)
Definition allLines (rl : RotateLog.rotateLogger) : list string :=
  concat ((λ id, RotateLog.files rl !!! id) <$> seqZ 0 (RotateLog.nextID rl)).

(** The bytes that [Log] counts for a list of lines. *)
Definition counted (logPrefixSize : Z) (lines : list string) : Z :=
  foldr (λ s n, logPrefixSize + len s + n) 0 lines.

(** The logger between two calls of [Log]: the open file is the one
    made last, the files are those with the sequence numbers below
    [nextID], and all but the open one hold a line. *)
Definition rotInv (rl : RotateLog.rotateLogger) : Prop :=
  RotateLog.f rl = Some (RotateLog.nextID rl - 1) ∧
  1 ≤ RotateLog.nextID rl ∧
  (∀ id, is_Some (RotateLog.files rl !! id) ↔ 0 ≤ id < RotateLog.nextID rl) ∧
  (∀ id, 0 ≤ id < RotateLog.nextID rl - 1 → RotateLog.files rl !!! id ≠ []).

(** Every file is within the limit of counted bytes, or holds one line. *)
Definition filesBounded (logPrefixSize logLimit : Z) (rl : RotateLog.rotateLogger) : Prop :=
  ∀ id, 0 ≤ id < RotateLog.nextID rl →
        counted logPrefixSize (RotateLog.files rl !!! id) ≤ logLimit ∨
        (length (RotateLog.files rl !!! id) ≤ 1)%nat.

(** A file is closed only when the next line did not fit: the bytes
    counted for a closed file and for the first line of the file after
    it are above the limit. *)
Definition filesFull (logPrefixSize logLimit : Z) (rl : RotateLog.rotateLogger) : Prop :=
  ∀ id, 0 ≤ id < RotateLog.nextID rl - 1 →
        ∃ s rest, RotateLog.files rl !!! (id + 1) = s :: rest ∧
                  logLimit < counted logPrefixSize (RotateLog.files rl !!! id)
                             + logPrefixSize + len s.

(** ** vlog.go: [New] and [inferName] *)

(** [strings.LastIndex(s, substr)]: the last position where [substr]
    occurs in [s], or [-1]. *)
Fixpoint LastIndex (s substr : string) : Z :=
  match s with
  | "" => if HasPrefix s substr then 0 else -1
  | String _ s' =>
      let i := LastIndex s' substr in
      if i <? 0 then (if HasPrefix s substr then 0 else -1) else i + 1
  end.

(** [path.Split(p)]: [i := lastSlash(p); return p[:i+1], p[i+1:]] *)
Definition path_Split (p : string) : string * string :=
  let i := LastIndex p "/" in
  (sliceTo p (i + 1), sliceFrom p (i + 1)).

Section InferName.
(** [path.Join(dn, fn)] of the standard library: the two joined by a
    slash, and cleaned. *)
Variable path_Join : string → string → string.

(** [for _, p := range []string{"/main/", "/cmd/"} { if ... return }];
    [None] when the loop ends without a return. *)
Fixpoint inferName_loop (ps : list string) (dn fn : string) : option string :=
  match ps with
  | [] => None
  | p :: ps' =>
      if HasSuffix dn p then
        Some (path_Join (sliceTo dn (len dn - len p)) (sliceTo fn (len fn - len ".go")))
      else inferName_loop ps' dn fn
  end.

Definition inferName (fn : string) : string :=
  let fn := ToLower fn in
  let i := LastIndex fn "/src/" in
  if i <? 0 then ""
  else
    let '(dn, fn) := path_Split (sliceFrom fn (i + len "/src/")) in
    if negb (HasSuffix fn ".go") then ""
    else match inferName_loop ["/main/"; "/cmd/"] dn fn with
         | Some name => name
         | None => TrimRight dn "/"
         end.

(** [New()]; [caller] is the file name that [runtime.Caller(1)] gives,
    [None] when it gives none. *)
Definition New (caller : option string) : M nat :=
  match caller with
  | None =>
      lg_Log "fail to get file from runtime.caller";;
      vars ← getLevelVars;
      match vars with
      | [] => panic "index out of range"
      | _ :: _ => mret O
      end
  | Some fn => newVar (inferName fn) fn
  end.

End InferName.

(** Joining two clean, non-empty path elements, as the examples need
    it. *)
Definition joinSlash (dn fn : string) : string := dn +:+ "/" +:+ fn.

(** * Facts about the string functions *)

Section StringFacts.

Implicit Types (s t a b p : string) (c d : ascii).

Lemma app_cons c s t : String c s +:+ t = String c (s +:+ t).
Proof. reflexivity. Qed.

Lemma app_nil_l s : "" +:+ s = s.
Proof. reflexivity. Qed.

Lemma app_nil_r s : s +:+ "" = s.
Proof. induction s as [|c s IH]; [done|]. by rewrite app_cons, IH. Qed.

Lemma app_assoc s t a : (s +:+ t) +:+ a = s +:+ t +:+ a.
Proof. induction s as [|c s IH]; [done|]. by rewrite !app_cons, IH. Qed.

Lemma length_app s t :
  String.length (s +:+ t) = (String.length s + String.length t)%nat.
Proof. induction s as [|c s IH]; [done|]. rewrite app_cons. simpl. by rewrite IH. Qed.

Lemma len_app s t : len (s +:+ t) = len s + len t.
Proof. unfold len. rewrite length_app. lia. Qed.

Lemma len_nonneg s : 0 ≤ len s.
Proof. unfold len. lia. Qed.

Lemma len_cons c s : len (String c s) = len s + 1.
Proof. unfold len. simpl. lia. Qed.

Lemma app_eq_nil s t : s +:+ t = "" → s = "" ∧ t = "".
Proof. destruct s; [done|]. by rewrite app_cons. Qed.

Lemma eqb_empty s : String.eqb s "" = true ↔ s = "".
Proof. apply String.eqb_eq. Qed.

(** *** Slices *)

Lemma takeb_app_length a b : takeb (String.length a) (a +:+ b) = a.
Proof.
  induction a as [|c a IH]; [done|].
  rewrite app_cons. simpl. by rewrite IH.
Qed.

Lemma dropb_app_length a b : dropb (String.length a) (a +:+ b) = b.
Proof. induction a as [|c a IH]; [done|]. by rewrite app_cons. Qed.

Lemma takeb_dropb n s : takeb n s +:+ dropb n s = s.
Proof.
  revert s. induction n as [|n IH]; intros [|c s]; try done.
  simpl. by rewrite app_cons, IH.
Qed.

Lemma length_dropb n s : String.length (dropb n s) = (String.length s - n)%nat.
Proof. revert s. induction n as [|n IH]; intros [|c s]; simpl; auto with lia. Qed.

Lemma sliceTo_app a b : sliceTo (a +:+ b) (len a) = a.
Proof. unfold sliceTo, len. rewrite Nat2Z.id. apply takeb_app_length. Qed.

Lemma sliceFrom_app a b : sliceFrom (a +:+ b) (len a) = b.
Proof. unfold sliceFrom, len. rewrite Nat2Z.id. apply dropb_app_length. Qed.

Lemma sliceFrom_app_cons a c b : sliceFrom (a +:+ String c b) (len a + 1) = b.
Proof.
  replace (len a + 1) with (len (a +:+ String c "")).
  - rewrite <- (sliceFrom_app (a +:+ String c "") b) at 2.
    by rewrite app_assoc.
  - rewrite len_app. reflexivity.
Qed.

(** [k[:len(k)-1]] drops the last byte. *)
Lemma sliceTo_init a c : sliceTo (a +:+ String c "") (len (a +:+ String c "") - 1) = a.
Proof.
  rewrite len_app. replace (len a + len (String c "") - 1) with (len a) by (unfold len; simpl; lia).
  apply sliceTo_app.
Qed.

Lemma snoc_cases s : s = "" ∨ ∃ a c, s = a +:+ String c "".
Proof.
  induction s as [|c s IH]; [by left|right].
  destruct IH as [->|(a & d & ->)].
  - by exists "", c.
  - by exists (String c a), d.
Qed.

Lemma app_inj_snoc a b c d :
  a +:+ String c "" = b +:+ String d "" → a = b ∧ c = d.
Proof.
  revert b. induction a as [|x a IH]; intros [|y b]; rewrite ?app_cons, ?app_nil_l.
  - by intros [= ->].
  - intros [= -> H]. destruct b; by rewrite ?app_cons in H.
  - intros [= -> H]. destruct a; by rewrite ?app_cons in H.
  - intros [= -> H]. apply IH in H as [-> ->]. done.
Qed.

(** *** Occurrences of a byte *)

Lemma hasByte_app c a b : hasByte c (a +:+ b) = hasByte c a || hasByte c b.
Proof.
  induction a as [|d a IH]; [done|].
  rewrite app_cons. simpl. rewrite IH. by rewrite orb_assoc.
Qed.

Lemma hasByte_split c s :
  hasByte c s = true → ∃ a b, s = a +:+ String c b ∧ hasByte c a = false.
Proof.
  induction s as [|d s IH]; [done|]. simpl.
  destruct (Ascii.eqb_spec c d) as [->|Hne]; simpl.
  - intros _. by exists "", s.
  - intros (a & b & -> & Ha)%IH. exists (String d a), b. split; [done|].
    simpl. rewrite Ha. by apply Ascii.eqb_neq in Hne as ->.
Qed.

(** *** [HasPrefix] and [HasSuffix] *)

Lemma HasPrefix_spec s p : HasPrefix s p = true ↔ ∃ t, s = p +:+ t.
Proof.
  revert s. induction p as [|c p IH]; intros s; simpl.
  - split; [intros _; by exists s|done].
  - destruct s as [|d s]; simpl; [split; [done|intros [t Ht]; by rewrite app_cons in Ht]|].
    rewrite andb_true_iff, Ascii.eqb_eq, IH. split.
    + intros [-> [t ->]]. by exists t.
    + intros [t Ht]. rewrite app_cons in Ht. injection Ht as -> ->. eauto.
Qed.

Lemma HasPrefix_app p t : HasPrefix (p +:+ t) p = true.
Proof. apply HasPrefix_spec. by exists t. Qed.

Lemma HasSuffix_spec s t : HasSuffix s t = true ↔ ∃ p, s = p +:+ t.
Proof.
  unfold HasSuffix. rewrite andb_true_iff, Z.leb_le, String.eqb_eq. split.
  - intros [Hle Heq]. exists (sliceTo s (len s - len t)).
    rewrite <- Heq at 2. unfold sliceTo, sliceFrom. by rewrite takeb_dropb.
  - intros [p ->]. rewrite len_app. split; [pose proof (len_nonneg p); lia|].
    replace (len p + len t - len t) with (len p) by lia.
    apply sliceFrom_app.
Qed.

(** *** [Index] of a single byte *)

Lemma Index_range s t : -1 ≤ Index s t ≤ len s.
Proof.
  induction s as [|c s IH]; simpl.
  - destruct (HasPrefix _ _); unfold len; simpl; lia.
  - rewrite len_cons. destruct (HasPrefix _ _); [pose proof (len_nonneg s); lia|].
    destruct (Z.ltb_spec (Index s t) 0); lia.
Qed.

Lemma Index_byte_cons d s c :
  Index (String d s) (String c "") =
    if Ascii.eqb c d then 0
    else if Index s (String c "") <? 0 then -1 else Index s (String c "") + 1.
Proof. simpl. by destruct (Ascii.eqb c d). Qed.

Lemma Index_byte_nil c : Index "" (String c "") = -1.
Proof. reflexivity. Qed.

Lemma Index_byte_none c s : hasByte c s = false → Index s (String c "") = -1.
Proof.
  induction s as [|d s IH]; [done|].
  simpl hasByte. intros [Hc Hs]%orb_false_iff.
  rewrite Index_byte_cons, Hc, (IH Hs). done.
Qed.

Lemma Index_byte_app c a b :
  hasByte c a = false → Index (a +:+ String c b) (String c "") = len a.
Proof.
  induction a as [|d a IH].
  - intros _. rewrite app_nil_l, Index_byte_cons, Ascii.eqb_refl. done.
  - simpl hasByte. intros [Hc Ha]%orb_false_iff.
    rewrite app_cons, Index_byte_cons, Hc, (IH Ha), len_cons.
    pose proof (len_nonneg a). destruct (Z.ltb_spec (len a) 0); [lia|done].
Qed.

Lemma Index_byte_some c s :
  hasByte c s = true →
  ∃ a b, s = a +:+ String c b ∧ hasByte c a = false ∧ Index s (String c "") = len a.
Proof.
  intros (a & b & -> & Ha)%hasByte_split. exists a, b.
  by rewrite Index_byte_app.
Qed.

Lemma Contains_byte s c : Contains s (String c "") = hasByte c s.
Proof.
  unfold Contains. destruct (hasByte c s) eqn:H.
  - apply Index_byte_some in H as (a & b & _ & _ & ->).
    apply Z.leb_le, len_nonneg.
  - by rewrite Index_byte_none.
Qed.

(** *** [ToLower] *)

Lemma ToLower_app a b : ToLower (a +:+ b) = ToLower a +:+ ToLower b.
Proof. induction a as [|c a IH]; [done|]. rewrite app_cons. simpl. by rewrite IH. Qed.

Lemma ToLower_nil_inv s : ToLower s = "" → s = "".
Proof. by destruct s. Qed.

Lemma length_ToLower s : String.length (ToLower s) = String.length s.
Proof. induction s as [|c s IH]; [done|]. simpl. by rewrite IH. Qed.

(** Lowering a byte neither makes nor unmakes a [*] or a [/]. *)
Lemma lowerByte_star c : Ascii.eqb "*" (lowerByte c) = Ascii.eqb "*" c.
Proof. by destruct c as [[] [] [] [] [] [] [] []]. Qed.

Lemma lowerByte_slash c : Ascii.eqb "/" (lowerByte c) = Ascii.eqb "/" c.
Proof. by destruct c as [[] [] [] [] [] [] [] []]. Qed.

Lemma hasByte_star_ToLower s : hasByte "*" (ToLower s) = hasByte "*" s.
Proof.
  induction s as [|c s IH]; [done|].
  cbn [hasByte ToLower]. by rewrite IH, lowerByte_star.
Qed.

Lemma ToLower_snoc_slash s p : ToLower s = p +:+ "/" → ∃ a, s = a +:+ "/".
Proof.
  destruct (snoc_cases s) as [->|(a & c & ->)].
  - intros H. symmetry in H. by apply app_eq_nil in H as [_ ?].
  - rewrite ToLower_app. simpl ToLower. intros H.
    assert (lowerByte c = "/"%char) as Hc.
    { apply (f_equal String.length) in H as Hlen. rewrite !length_app in Hlen.
      simpl in Hlen.
      apply (f_equal (dropb (String.length (ToLower a)))) in H.
      rewrite dropb_app_length in H.
      replace (String.length (ToLower a)) with (String.length p) in H by lia.
      rewrite dropb_app_length in H. by injection H. }
    exists a. f_equal. f_equal.
    apply Ascii.eqb_eq. rewrite Ascii.eqb_sym, <- lowerByte_slash, Hc. done.
Qed.

End StringFacts.

(** * The configuration parser *)

Section ParseFacts.

Implicit Types (s k name v value tok : string) (st : state).
Implicit Types (exact prefix : levelMap).

Lemma bind_run {S A B} (m : ST S A) (f : A → ST S B) (st : S) :
  (m ≫= f) st = match m st with
                | (Done a, st') => f a st'
                | (Panic msg, st') => (Panic msg, st')
                | (OutOfFuel, st') => (OutOfFuel, st')
                end.
Proof. reflexivity. Qed.

Lemma eqb_decide s t : String.eqb s t = bool_decide (s = t).
Proof.
  destruct (String.eqb_spec s t).
  - by rewrite bool_decide_eq_true_2.
  - by rewrite bool_decide_eq_false_2.
Qed.

(** [parseLevel] never panics: it returns [tokenLevel], with a
    diagnostic exactly for the unknown tokens. *)
Lemma parseLevel_spec tok st :
  parseLevel tok st = (Done (tokenLevel tok), afterToken tok st).
Proof.
  unfold parseLevel, tokenLevel, afterToken, knownToken, levelTokens.
  rewrite !eqb_decide. generalize (ToLower tok) as l. intros l.
  destruct (decide (l = "2")) as [->|H1]; [reflexivity|].
  destruct (decide (l = "v2")) as [->|H2]; [reflexivity|].
  destruct (decide (l = "1")) as [->|H3]; [reflexivity|].
  destruct (decide (l = "v1")) as [->|H4]; [reflexivity|].
  destruct (decide (l = "i")) as [->|H5]; [reflexivity|].
  destruct (decide (l = "info")) as [->|H6]; [reflexivity|].
  destruct (decide (l = "e")) as [->|H7]; [reflexivity|].
  destruct (decide (l = "err")) as [->|H8]; [reflexivity|].
  rewrite !(bool_decide_eq_false_2 (l = _)) by done.
  rewrite !(bool_decide_eq_false_2 (l ∈ _))
    by (rewrite !elem_of_cons, elem_of_nil; tauto).
  reflexivity.
Qed.

Lemma parseFlag_rule_noLevel value k s exact prefix st :
  noLevel k →
  parseFlag_rule value k s exact prefix st
  = (Panic (Format ["malformed: no level"; value]), st).
Proof.
  intros Hk. unfold parseFlag_rule. by rewrite (Index_byte_none _ _ Hk).
Qed.

(** A rule [name=v]: the level is parsed first, then the name is
    checked. *)
Lemma parseFlag_rule_split value name v s exact prefix st :
  hasByte "=" name = false →
  parseFlag_rule value (name +:+ "=" +:+ v) s exact prefix st =
    let k := ToLower name in
    let lv := tokenLevel v in
    if isPrefixName k then
      if hasByte "*" (sliceTo k (len k - 1))
      then (Panic (Format ["malformed: multiple star"; s]), afterToken v st)
      else (Done (s, exact, <[TrimRight (sliceTo k (len k - 1)) "/" +:+ "/" := lv]> prefix),
            afterToken v st)
    else
      if hasByte "*" k
      then (Panic (Format ["malformed: star in middle"; s]), afterToken v st)
      else (Done (s, <[TrimRight k "/" := lv]> exact, prefix), afterToken v st).
Proof.
  intros Hname. unfold parseFlag_rule, isPrefixName.
  change ("=" +:+ v) with (String "=" v).
  rewrite (Index_byte_app _ _ _ Hname).
  pose proof (len_nonneg name) as Hlen.
  destruct (Z.ltb_spec (len name) 0) as [|_]; [lia|].
  rewrite sliceTo_app, sliceFrom_app_cons, bind_run, parseLevel_spec.
  cbv zeta. rewrite !Contains_byte. clear.
  destruct (_ || _); destruct (hasByte "*" _); reflexivity.
Qed.

Lemma parseFlag_rule_ok value name v s exact prefix st :
  hasByte "=" name = false → wildcardOK name = true →
  parseFlag_rule value (name +:+ "=" +:+ v) s exact prefix st =
    (Done (s, (record name (tokenLevel v) (exact, prefix)).1,
              (record name (tokenLevel v) (exact, prefix)).2),
     afterToken v st).
Proof.
  intros Hname Hok. rewrite parseFlag_rule_split by done.
  unfold wildcardOK in Hok. unfold record. cbv zeta.
  destruct (isPrefixName _); apply negb_true_iff in Hok; by rewrite Hok.
Qed.

Lemma parseFlag_rule_bad value name v s exact prefix st :
  hasByte "=" name = false → wildcardOK name = false →
  ∃ msg, parseFlag_rule value (name +:+ "=" +:+ v) s exact prefix st =
           (Panic msg, afterToken v st).
Proof.
  intros Hname Hok. rewrite parseFlag_rule_split by done.
  unfold wildcardOK in Hok. cbv zeta.
  destruct (isPrefixName _); apply negb_false_iff in Hok; rewrite Hok; eauto.
Qed.

(** Whatever the rule, the turn ends: with a panic or with a result. *)
Lemma parseFlag_rule_total value k s exact prefix st :
  (∃ msg st', parseFlag_rule value k s exact prefix st = (Panic msg, st')
              ∧ levelVars st' = levelVars st) ∨
  (∃ exact' prefix' st', parseFlag_rule value k s exact prefix st =
                           (Done (s, exact', prefix'), st')
                         ∧ levelVars st' = levelVars st).
Proof.
  assert (∀ tok, levelVars (afterToken tok st) = levelVars st) as Hlv.
  { intros tok. unfold afterToken. by destruct (knownToken tok). }
  destruct (hasByte "=" k) eqn:Hk.
  - apply hasByte_split in Hk as (name & v & -> & Hname).
    change (String "=" v) with ("=" +:+ v).
    rewrite parseFlag_rule_split by done. cbv zeta.
    destruct (isPrefixName _); destruct (hasByte "*" _); eauto 10.
  - left. rewrite parseFlag_rule_noLevel by done. eauto.
Qed.

(** *** Misplaced wildcards *)

Lemma multipleStars_strayStar name : multipleStars name → strayStar name.
Proof.
  intros (a & b & c & ->). exists a, (b +:+ "*" +:+ c). split; [done|].
  intros [H _]. apply app_eq_nil in H as [_ H]. discriminate H.
Qed.

Lemma strayStar_wildcardOK name : strayStar name → wildcardOK name = false.
Proof.
  intros (a & b & -> & Hstray). unfold wildcardOK. cbv zeta.
  rewrite ToLower_app.
  change (ToLower ("*" +:+ b)) with ("*" +:+ ToLower b).
  destruct (isPrefixName _) eqn:Hpre; apply negb_false_iff.
  - destruct (snoc_cases (ToLower b)) as [Hb|(b' & c & Hb)]; rewrite Hb.
    + exfalso. apply Hstray. rewrite Hb in Hpre.
      apply ToLower_nil_inv in Hb as ->. split; [done|].
      unfold isPrefixName in Hpre.
      apply orb_true_iff in Hpre as [H|H].
      * left. apply String.eqb_eq in H.
        change "*" with ("" +:+ "*") in H at 2.
        apply app_inj_snoc in H as [H _]. by apply ToLower_nil_inv.
      * right. apply HasSuffix_spec in H as [p H].
        change (p +:+ "/*") with (p +:+ "/" +:+ "*") in H.
        rewrite <- (app_assoc p) in H.
        apply app_inj_snoc in H as [H _]. by apply ToLower_snoc_slash in H.
    + change ("*" +:+ b' +:+ String c "") with (("*" +:+ b') +:+ String c "").
      rewrite <- app_assoc, sliceTo_init, !hasByte_app. simpl.
      by rewrite orb_true_r.
  - rewrite hasByte_app. simpl. by rewrite orb_true_r.
Qed.

Lemma parseFlag_rule_malformed value r s exact prefix st :
  malformed r →
  ∃ msg st', parseFlag_rule value r s exact prefix st = (Panic msg, st')
             ∧ levelVars st' = levelVars st.
Proof.
  intros [Hno|(name & v & -> & Hname & Hstar)].
  - rewrite parseFlag_rule_noLevel by done. eauto.
  - assert (wildcardOK name = false) as Hok.
    { destruct Hstar; auto using strayStar_wildcardOK, multipleStars_strayStar. }
    destruct (parseFlag_rule_bad value name v s exact prefix st Hname Hok) as [msg ->].
    eexists _, _. split; [done|]. unfold afterToken. by destruct (knownToken v).
Qed.

(** *** Cutting the flag into rules *)

Lemma nextRule_comma a b : hasByte "," a = false → nextRule (a +:+ "," +:+ b) = (a, b).
Proof.
  intros Ha. unfold nextRule. change ("," +:+ b) with (String "," b).
  rewrite (Index_byte_app _ _ _ Ha).
  pose proof (len_nonneg a). destruct (Z.leb_spec 0 (len a)); [|lia].
  by rewrite sliceTo_app, sliceFrom_app_cons.
Qed.

Lemma nextRule_last s : hasByte "," s = false → nextRule s = (s, "").
Proof. intros Hs. unfold nextRule. by rewrite (Index_byte_none _ _ Hs). Qed.

Lemma rulesOf_comma a b : hasByte "," a = false → rulesOf (a +:+ "," +:+ b) = a :: rulesOf b.
Proof.
  induction a as [|c a IH]; [done|].
  cbn [hasByte]. intros [Hc Ha]%orb_false_iff.
  rewrite app_cons. cbn [rulesOf]. rewrite Ascii.eqb_sym, Hc. by rewrite IH.
Qed.

Lemma rulesOf_last s : s ≠ "" → hasByte "," s = false → rulesOf s = [s].
Proof.
  induction s as [|c s IH]; [done|]. intros _.
  cbn [hasByte]. intros [Hc Hs]%orb_false_iff.
  cbn [rulesOf]. rewrite Ascii.eqb_sym, Hc.
  destruct s as [|d s]; [done|]. by rewrite IH.
Qed.

(** The loop meets the rules of [rulesOf], one per turn, on an ever
    shorter [s]. *)
Lemma nextRule_rulesOf s :
  s ≠ "" → rulesOf s = (nextRule s).1 :: rulesOf (nextRule s).2.
Proof.
  intros Hs. destruct (hasByte "," s) eqn:Hc.
  - apply hasByte_split in Hc as (a & b & -> & Ha).
    change (String "," b) with ("," +:+ b).
    by rewrite nextRule_comma, rulesOf_comma.
  - by rewrite nextRule_last, rulesOf_last.
Qed.

Lemma nextRule_length s :
  s ≠ "" → (String.length (nextRule s).2 < String.length s)%nat.
Proof.
  intros Hs. destruct (hasByte "," s) eqn:Hc.
  - apply hasByte_split in Hc as (a & b & -> & Ha).
    change (String "," b) with ("," +:+ b).
    rewrite nextRule_comma by done. rewrite !length_app. simpl. lia.
  - rewrite nextRule_last by done. destruct s; [done|simpl; lia].
Qed.

(** *** The loop *)

Lemma parseFlag_loop_nil fuel value exact prefix st :
  parseFlag_loop fuel value "" exact prefix st = (Done (exact, prefix), st).
Proof. by destruct fuel. Qed.

Lemma parseFlag_loop_step fuel value s exact prefix st :
  s ≠ "" →
  parseFlag_loop (S fuel) value s exact prefix st =
    match parseFlag_rule value (nextRule s).1 (nextRule s).2 exact prefix st with
    | (Done (s', exact', prefix'), st') => parseFlag_loop fuel value s' exact' prefix' st'
    | (Panic msg, st') => (Panic msg, st')
    | (OutOfFuel, st') => (OutOfFuel, st')
    end.
Proof.
  intros Hs. cbn [parseFlag_loop].
  apply String.eqb_neq in Hs as ->.
  rewrite bind_run. unfold parseFlag_body.
  destruct (nextRule s) as [k s']. simpl.
  destruct (parseFlag_rule _ _ _ _ _ _) as [[[[??]?]| |] ?]; done.
Qed.

Lemma length_zero_empty s : (String.length s ≤ 0)%nat → s = "".
Proof. destruct s; simpl; [done|lia]. Qed.

(** [len(value)] turns are enough: the loop never runs out of fuel, it
    ends with a panic or with the two maps, and it only ever writes to
    the log. *)
Lemma parseFlag_loop_total fuel value s exact prefix st :
  (String.length s ≤ fuel)%nat →
  (∃ msg st', parseFlag_loop fuel value s exact prefix st = (Panic msg, st')
              ∧ levelVars st' = levelVars st) ∨
  (∃ exact' prefix' st', parseFlag_loop fuel value s exact prefix st =
                           (Done (exact', prefix'), st')
                         ∧ levelVars st' = levelVars st).
Proof.
  revert s exact prefix st. induction fuel as [|fuel IH]; intros s exact prefix st Hlen.
  - apply length_zero_empty in Hlen as ->. right. rewrite parseFlag_loop_nil. eauto.
  - destruct (decide (s = "")) as [->|Hs].
    { right. rewrite parseFlag_loop_nil. eauto. }
    rewrite parseFlag_loop_step by done.
    pose proof (nextRule_length s Hs) as Hshort.
    destruct (parseFlag_rule_total value (nextRule s).1 (nextRule s).2 exact prefix st)
      as [(msg & st' & -> & Hst')|(exact' & prefix' & st' & -> & Hst')].
    + left. eauto.
    + rewrite <- Hst'. apply IH. lia.
Qed.

Lemma parseFlag_loop_fuel fuel fuel' value s exact prefix st :
  (String.length s ≤ fuel)%nat → (String.length s ≤ fuel')%nat →
  parseFlag_loop fuel value s exact prefix st
  = parseFlag_loop fuel' value s exact prefix st.
Proof.
  revert fuel' s exact prefix st.
  induction fuel as [|fuel IH]; intros fuel' s exact prefix st Hlen Hlen'.
  - apply length_zero_empty in Hlen as ->. by rewrite !parseFlag_loop_nil.
  - destruct (decide (s = "")) as [->|Hs]; [by rewrite !parseFlag_loop_nil|].
    destruct fuel' as [|fuel'].
    { by apply length_zero_empty in Hlen'. }
    rewrite !parseFlag_loop_step by done.
    pose proof (nextRule_length s Hs) as Hshort.
    destruct (parseFlag_rule_total value (nextRule s).1 (nextRule s).2 exact prefix st)
      as [(msg & st' & -> & Hst')|(exact' & prefix' & st' & -> & Hst')]; [done|].
    apply IH; lia.
Qed.

(** A malformed rule anywhere in the flag makes the loop panic. *)
Lemma parseFlag_loop_malformed fuel value s r exact prefix st :
  (String.length s ≤ fuel)%nat → r ∈ rulesOf s → malformed r →
  ∃ msg st', parseFlag_loop fuel value s exact prefix st = (Panic msg, st')
             ∧ levelVars st' = levelVars st.
Proof.
  revert s exact prefix st.
  induction fuel as [|fuel IH]; intros s exact prefix st Hlen Hin Hbad.
  - apply length_zero_empty in Hlen as ->. by apply elem_of_nil in Hin.
  - destruct (decide (s = "")) as [->|Hs]; [by apply elem_of_nil in Hin|].
    rewrite parseFlag_loop_step by done.
    pose proof (nextRule_length s Hs) as Hshort.
    rewrite (nextRule_rulesOf s Hs) in Hin.
    apply elem_of_cons in Hin as [->|Hin].
    + destruct (parseFlag_rule_malformed value (nextRule s).1 (nextRule s).2
                  exact prefix st Hbad) as (msg & st' & -> & Hst').
      eauto.
    + destruct (parseFlag_rule_total value (nextRule s).1 (nextRule s).2 exact prefix st)
        as [(msg & st' & -> & Hst')|(exact' & prefix' & st' & -> & Hst')]; [eauto|].
      rewrite <- Hst'. apply IH; [lia|done..].
Qed.

(** Every key of the prefix map ends with [/], so that [k[:len(k)-1]]
    in [setLevels] is within bounds. *)
Lemma parseFlag_loop_prefix_keys fuel value s exact prefix st exact' prefix' st' :
  parseFlag_loop fuel value s exact prefix st = (Done (exact', prefix'), st') →
  (∀ k, is_Some (prefix !! k) → ∃ p, k = p +:+ "/") →
  ∀ k, is_Some (prefix' !! k) → ∃ p, k = p +:+ "/".
Proof.
  revert s exact prefix st. induction fuel as [|fuel IH]; intros s exact prefix st.
  - cbn [parseFlag_loop]. destruct (String.eqb s ""); [|done].
    by intros [= <- <- <-].
  - destruct (decide (s = "")) as [->|Hs].
    { rewrite parseFlag_loop_nil. by intros [= <- <- <-]. }
    rewrite parseFlag_loop_step by done.
    destruct (hasByte "=" (nextRule s).1) eqn:Heq.
    + apply hasByte_split in Heq as (name & v & -> & Hname).
      change (String "=" v) with ("=" +:+ v).
      rewrite parseFlag_rule_split by done. cbv zeta.
      destruct (isPrefixName _); destruct (hasByte "*" _); try done.
      * intros Hloop Hkeys. apply (IH _ _ _ _ Hloop).
        intros k [l Hk]. apply lookup_insert_Some in Hk as [[<- _]|[_ Hk]]; eauto.
      * apply IH.
    + by rewrite parseFlag_rule_noLevel.
Qed.

Lemma parseFlag_prefix_keys value st exact prefix st' k :
  parseFlag value st = (Done (exact, prefix), st') →
  is_Some (prefix !! k) → ∃ p, k = p +:+ "/".
Proof.
  intros Hparse. apply (parseFlag_loop_prefix_keys _ _ _ _ _ _ _ _ _ Hparse).
  intros k' [l Hl]. by rewrite lookup_empty in Hl.
Qed.

Lemma parseFlag_total value st :
  (∃ msg st', parseFlag value st = (Panic msg, st') ∧ levelVars st' = levelVars st) ∨
  (∃ exact prefix st', parseFlag value st = (Done (exact, prefix), st')
                       ∧ levelVars st' = levelVars st).
Proof. by apply parseFlag_loop_total. Qed.

End ParseFacts.

(** * Resolution *)

Section ResolveFacts.

Implicit Types (s k name v value : string) (st : state) (lv : levelVar).
Implicit Types (exact prefix : levelMap).

Lemma setLevel_id lv : setLevel lv (Level' lv) = lv.
Proof. by destruct lv. Qed.

Lemma setLevels_panic value st msg st' :
  parseFlag value st = (Panic msg, st') → setLevels value st = (Panic msg, st').
Proof. intros H. unfold setLevels. by rewrite bind_run, H. Qed.

(** The inner loop of [setLevels] is a search from the last prefix of
    the sorted slice down to the first. *)
Lemma scanPrefixes_find prefixes prefix lv n :
  (n ≤ length prefixes)%nat →
  scanPrefixes prefixes prefix lv n =
    match List.find (prefixMatch (Name lv)) (reverse (take n prefixes)) with
    | Some k => setLevel lv (prefix !!! k)
    | None => lv
    end.
Proof.
  induction n as [|n IH]; intros Hn; [done|].
  destruct (lookup_lt_is_Some_2 prefixes n) as [k Hk]; [lia|].
  rewrite (take_S_r _ _ _ Hk), reverse_snoc. cbn [scanPrefixes List.find].
  rewrite (list_lookup_total_correct _ _ _ Hk).
  destruct (prefixMatch _ _); [done|]. apply IH. lia.
Qed.

Lemma sortedPrefixes_empty : sortedPrefixes ∅ = [].
Proof. unfold sortedPrefixes. by rewrite map_to_list_empty. Qed.

(** What a successful [setLevels] leaves in the registry. *)
Lemma setLevels_done value st exact prefix st' root rest :
  parseFlag value st = (Done (exact, prefix), st') →
  levelVars st' = root :: rest →
  let root' := match prefix !! "/" with
               | Some v => setLevel root v
               | None => root
               end in
  setLevels value st =
    (Done (),
     {| levelVars :=
          root' :: ((λ lv, setLevel lv (resolve (Level' root') exact prefix (Name lv)))
                      <$> rest);
        lg := lg st' |}).
Proof.
  intros Hparse Hvars root'. unfold setLevels.
  rewrite bind_run, Hparse. unfold getLevelVars. rewrite bind_run, Hvars.
  fold root'. unfold putLevelVars. f_equal. f_equal. f_equal.
  set (scan := λ lv, if 0 <? Z.of_nat (size prefix)
                     then scanPrefixes (sortedPrefixes prefix) prefix lv
                            (length (sortedPrefixes prefix))
                     else lv).
  assert (∀ lv, scan lv
                = match List.find (prefixMatch (Name lv)) (scanOrder prefix) with
                  | Some k => setLevel lv (prefix !!! k)
                  | None => lv
                  end) as Hscan.
  { intros lv. unfold scan, scanOrder.
    destruct (Z.ltb_spec 0 (Z.of_nat (size prefix))).
    - by rewrite scanPrefixes_find, firstn_all.
    - assert (prefix = ∅) as -> by (apply map_size_empty_iff; lia).
      by rewrite sortedPrefixes_empty. }
  assert (∀ l : list levelVar,
            (if 0 <? Z.of_nat (size prefix)
             then (λ lv, scanPrefixes (sortedPrefixes prefix) prefix lv
                           (length (sortedPrefixes prefix))) <$> l
             else l) = scan <$> l) as ->.
  { intros l. unfold scan. destruct (0 <? _); [done|]. by rewrite list_fmap_id. }
  rewrite <- !list_fmap_compose. apply list_fmap_ext. intros i lv _. simpl.
  rewrite Hscan. unfold resolve. simpl.
  destruct (List.find _ _); simpl; by destruct (exact !! Name lv).
Qed.

End ResolveFacts.

(** * The registry *)

Section RegistryFacts.

Implicit Types (name fn : string) (st : state) (lv : levelVar).
Implicit Types (vars : list levelVar).

Lemma findName_Some vars name i :
  findName vars name = Some i →
  ∃ lv, vars !! i = Some lv ∧ Name lv = name.
Proof.
  revert i. induction vars as [|lv vars IH]; intros i; [done|].
  cbn [findName]. destruct (String.eqb_spec (Name lv) name) as [Heq|Hne].
  - intros [= <-]. by exists lv.
  - destruct (findName vars name) as [j|]; [|done].
    intros [= <-]. by apply IH.
Qed.

Lemma findName_None vars name :
  findName vars name = None → name ∉ Name <$> vars.
Proof.
  induction vars as [|lv vars IH]; [intros _; apply not_elem_of_nil|].
  cbn [findName]. destruct (String.eqb_spec (Name lv) name) as [Heq|Hne]; [done|].
  destruct (findName vars name); [done|]. intros _.
  rewrite fmap_cons, not_elem_of_cons. split; [done|by apply IH].
Qed.

(** The cell that [newVar] appends is found at the index that was
    returned for it. *)
Lemma findName_snoc vars lv :
  findName vars (Name lv) = None →
  findName (vars ++ [lv]) (Name lv) = Some (length vars).
Proof.
  induction vars as [|lv' vars IH]; cbn [findName app length].
  - by rewrite String.eqb_refl.
  - destruct (String.eqb (Name lv') (Name lv)); [done|].
    destruct (findName vars (Name lv)); [done|]. intros _. by rewrite IH.
Qed.

Lemma wfRegistry_init : wfRegistry (levelVars init).
Proof.
  eexists _, []. split; [done|]. split; [done|].
  split; [constructor|apply not_elem_of_nil].
Qed.

Lemma newVar_wf name fn st :
  wfRegistry (levelVars st) → wfRegistry (levelVars (newVar name fn st).2).
Proof.
  intros Hwf. unfold newVar.
  destruct (String.eqb_spec name "") as [->|Hname].
  { rewrite !bind_run. cbn [lg_Log getLevelVars levelVars].
    by destruct (levelVars st). }
  rewrite bind_run. unfold getLevelVars.
  destruct (findName (levelVars st) name) eqn:Hfind; [done|].
  apply findName_None in Hfind.
  destruct Hwf as (root & rest & Hvars & Hroot & Hnodup & Hne).
  simpl. rewrite Hvars in Hfind |- *.
  rewrite fmap_cons, not_elem_of_cons in Hfind. destruct Hfind as [_ Hfind].
  exists root, (rest ++ [ {| Name := name; File := fn; Level' := info |} ]).
  split; [done|]. split; [done|].
  rewrite fmap_app. simpl. split.
  - apply NoDup_app. split; [done|]. split; [|apply NoDup_singleton].
    intros x Hx ->%list_elem_of_singleton. done.
  - rewrite elem_of_app, list_elem_of_singleton. intros [?|?]; [done|by apply Hname].
Qed.

Lemma setLevels_wf value st :
  wfRegistry (levelVars st) → wfRegistry (levelVars (setLevels value st).2).
Proof.
  intros Hwf.
  destruct (parseFlag_total value st)
    as [(msg & st' & Hparse & Hst')|(exact & prefix & st' & Hparse & Hst')].
  - rewrite (setLevels_panic _ _ _ _ Hparse). simpl. by rewrite Hst'.
  - destruct Hwf as (root & rest & Hvars & Hroot & Hnodup & Hne).
    rewrite <- Hst' in Hvars.
    rewrite (setLevels_done _ _ _ _ _ _ _ Hparse Hvars). simpl.
    eexists _, _. split; [done|]. split; [by destruct (prefix !! "/")|].
    by rewrite <- list_fmap_compose.
Qed.

Lemma Reachable_wf st : Reachable st → wfRegistry (levelVars st).
Proof.
  induction 1; auto using wfRegistry_init, newVar_wf, setLevels_wf.
Qed.

End RegistryFacts.

(** * The tests of the repository, run on the embedding *)

Section Tests.

(** [TestParseFlag] *)
Example TestParseFlag_1 :
  parseFlag "*=e,foo=i,bar/*=v1,foo/bar/*=v2" init
  = (Done ({["foo" := info]},
           <["/" := err]> (<["bar/" := v1]> {["foo/bar/" := v2]})), init).
Proof. vm_compute. reflexivity. Qed.

Example TestParseFlag_2 :
  parseFlag "fe=e,fi=i,fv1=v1,fv2=v2" init
  = (Done (<["fe" := err]> (<["fi" := info]> (<["fv1" := v1]> {["fv2" := v2]})), ∅),
     init).
Proof. vm_compute. reflexivity. Qed.

(** [TestNew]: the empty name registers nothing. *)
Example TestNew :
  named (registerAll [""; "fa"; "fb"; "fb/foo"; "fc/foo"] init).2
  = [("", info); ("fa", info); ("fb", info); ("fb/foo", info); ("fc/foo", info)].
Proof. vm_compute. reflexivity. Qed.

(** [TestSetLevels], with what [printLevelVars] prints. *)
Example TestSetLevels_1 :
  ((registerAll ["a"; "a/b"; "a/b/c"; "b/c"; "c/d"];;
    setLevels "*=e,a=i,a/b=v1,c/d/e=i";; printLevelVars) init).1
  = Done "*=err,a=info,a/b=v1,a/b/c=err,b/c=err,c/d=err".
Proof. vm_compute. reflexivity. Qed.

Example TestSetLevels_2 :
  ((registerAll ["a"; "a/b"; "a/b/c"; "b/c"; "c/d"];;
    setLevels "a=i,a/b=v1,a/b/c=v2";; printLevelVars) init).1
  = Done "*=info,a=info,a/b=v1,a/b/c=v2,b/c=info,c/d=info".
Proof. vm_compute. reflexivity. Qed.

Example TestSetLevels_3 :
  ((registerAll ["a"; "a/b"; "a/b/c"; "b/c"; "c/d"];;
    setLevels "a/*=i,a/b/*=v1";; printLevelVars) init).1
  = Done "*=info,a=info,a/b=v1,a/b/c=v1,b/c=info,c/d=info".
Proof. vm_compute. reflexivity. Qed.

(** [TestLog]: the handles of the five cells after [setLevels]. *)
Example TestLog_levels :
  fst ((va ← newVar "a" ""; vab ← newVar "a/b" ""; vabc ← newVar "a/b/c" "";
        vabd ← newVar "a/b/d" ""; vc ← newVar "c" "";
        setLevels "*=e,a=i,a/b/*=v1,a/b/c=v2";;
        loadAll [va; vab; vabc; vabd; vc]) init)
  = Done [Some info; Some v1; Some v2; Some v1; Some err].
Proof. vm_compute. reflexivity. Qed.

End Tests.

(** * Registration *)

Section Registration.

Implicit Types (name fn : string) (st : state) (lv : levelVar).

Lemma Vset_load (h : nat) (l : Z) st lv :
  levelVars st !! h = Some lv → l = 1 ∨ l = 2 →
  ∃ old st', Vset h l st = (Done old, st') ∧ load h st' = LevelOfZ (- l).
Proof.
  intros Hh Hl. unfold Vset, store, load, getLevelVars, putLevelVars.
  destruct Hl as [-> | ->]; rewrite !bind_run; simpl;
    eexists _, _; (split; [reflexivity|]); simpl;
    by rewrite list_lookup_alter_eq, Hh.
Qed.

(** C6: registering a name twice gives the same handle both times; the
    second call adds no cell and logs one diagnostic; the handle points
    to the cell of that name, so that a level stored through the handle
    of the first call ([Vset]) is the level read through the handle of
    the second. *)
Theorem C6_newVar_idempotent st name fn1 fn2 :
  Reachable st →
  ∃ (h : nat) st1 msg lv,
    newVar name fn1 st = (Done h, st1) ∧
    newVar name fn2 st1 = (Done h, logged msg st1) ∧
    levelVars st1 !! h = Some lv ∧ Name lv = name ∧
    ∀ l, l = 1 ∨ l = 2 →
         ∃ old st2, Vset h l (logged msg st1) = (Done old, st2)
                    ∧ load h st2 = LevelOfZ (- l).
Proof.
  intros (root & rest & Hvars & Hroot & _)%Reachable_wf.
  assert (∀ (h : nat) st1 msg lv,
            newVar name fn1 st = (Done h, st1) →
            newVar name fn2 st1 = (Done h, logged msg st1) →
            levelVars st1 !! h = Some lv → Name lv = name →
            ∃ (h : nat) st1 msg lv,
              newVar name fn1 st = (Done h, st1) ∧
              newVar name fn2 st1 = (Done h, logged msg st1) ∧
              levelVars st1 !! h = Some lv ∧ Name lv = name ∧
              ∀ l, l = 1 ∨ l = 2 →
                   ∃ old st2, Vset h l (logged msg st1) = (Done old, st2)
                              ∧ load h st2 = LevelOfZ (- l)) as Hpack.
  { intros h st1 msg lv H1 H2 Hh Hn. exists h, st1, msg, lv.
    repeat split; try done. intros l Hl. by apply (Vset_load h l _ lv). }
  destruct (String.eqb_spec name "") as [->|Hname].
  - eapply (Hpack O _ _ root).
    + unfold newVar. rewrite String.eqb_refl, !bind_run.
      cbn [lg_Log getLevelVars levelVars]. rewrite Hvars. reflexivity.
    + unfold newVar. rewrite String.eqb_refl, !bind_run. reflexivity.
    + reflexivity.
    + done.
  - apply String.eqb_neq in Hname.
    destruct (findName (levelVars st) name) as [i|] eqn:Hfind.
    + destruct (findName_Some _ _ _ Hfind) as (lv & Hi & Hn).
      eapply (Hpack i _ _ lv).
      * unfold newVar. rewrite Hname, bind_run. unfold getLevelVars.
        rewrite Hfind. reflexivity.
      * unfold newVar. rewrite Hname, bind_run. unfold getLevelVars.
        cbn [levelVars]. rewrite Hfind. reflexivity.
      * exact Hi.
      * exact Hn.
    + set (lv := {| Name := name; File := fn1; Level' := info |}).
      eapply (Hpack (length (levelVars st)) _ _ lv).
      * unfold newVar. rewrite Hname, bind_run. unfold getLevelVars.
        rewrite Hfind. reflexivity.
      * unfold newVar. rewrite Hname, bind_run. unfold getLevelVars.
        cbn [levelVars].
        pose proof (findName_snoc (levelVars st) lv Hfind) as Hsnoc.
        unfold lv in Hsnoc. cbn [Name] in Hsnoc. rewrite Hsnoc. reflexivity.
      * cbn [levelVars]. by rewrite lookup_app_r, Nat.sub_diag.
      * done.
Qed.

Lemma C6_witness :
  ∃ (h : nat) st1 msg lv,
    newVar "a/b" "/src/a/b/x.go" init = (Done h, st1) ∧
    newVar "a/b" "/src/a/b/y.go" st1 = (Done h, logged msg st1) ∧
    levelVars st1 !! h = Some lv ∧ Name lv = "a/b" ∧
    ∀ l, l = 1 ∨ l = 2 →
         ∃ old st2, Vset h l (logged msg st1) = (Done old, st2)
                    ∧ load h st2 = LevelOfZ (- l).
Proof.
  apply (C6_newVar_idempotent init "a/b" "/src/a/b/x.go" "/src/a/b/y.go").
  apply Reachable_init.
Defined.

End Registration.

(** * Resolution of the levels *)

Section Resolution.

Implicit Types (name p k value : string) (st : state) (lv : levelVar).
Implicit Types (exact prefix : levelMap).

Lemma prefixMatch_spec name p :
  prefixMatch name (p +:+ "/") = true ↔
  name = p ∨ ∃ rest, name = p +:+ "/" +:+ rest.
Proof.
  unfold prefixMatch. rewrite sliceTo_init, orb_true_iff, String.eqb_eq, HasPrefix_spec.
  by setoid_rewrite app_assoc.
Qed.

Lemma scanOrder_singleton k (l : Level) : scanOrder {[k := l]} = [k].
Proof. unfold scanOrder, sortedPrefixes. by rewrite map_to_list_singleton. Qed.

(** C9: a cell matches the prefix [p/] when it is called [p] or when its
    name begins with [p/]; with the rule [p/*=l] alone, these cells get
    the level [l] and all others the default.  In [TestLog], the rule
    [a/b/*=v1] sets the cell [a/b] as well as the cell [a/b/d]. *)
Theorem C9_prefix_rule_covers_its_own_name name p :
  (prefixMatch name (p +:+ "/") = true ↔
   name = p ∨ ∃ rest, name = p +:+ "/" +:+ rest) ∧
  (∀ def l, resolve def ∅ {[p +:+ "/" := l]} name
            = if prefixMatch name (p +:+ "/") then l else def) ∧
  named ((registerAll ["a"; "a/b"; "a/b/c"; "a/b/d"; "c"];;
          setLevels "*=e,a=i,a/b/*=v1,a/b/c=v2") init).2
  = [("", err); ("a", info); ("a/b", v1); ("a/b/c", v2); ("a/b/d", v1); ("c", err)].
Proof.
  split; [apply prefixMatch_spec|]. split; [|by vm_compute].
  intros def l. unfold resolve. rewrite lookup_empty, scanOrder_singleton.
  cbn [List.find]. destruct (prefixMatch _ _); [|done].
  by rewrite lookup_total_singleton_eq.
Qed.

(** C2: the five cells of the spec's example under
    ["*=e,a=i,a/b=v1,a/b/c=v2"]. *)
Theorem C2_example_levels :
  let r := (registerAll ["a"; "a/b"; "a/b/c"; "a/b/d"; "c"];;
            setLevels "*=e,a=i,a/b=v1,a/b/c=v2") init in
  r.1 = Done () ∧
  named r.2 = [("", err); ("a", info); ("a/b", v1); ("a/b/c", v2);
               ("a/b/d", err); ("c", err)] ∧
  lg r.2 = [].
Proof. vm_compute. done. Qed.

Lemma parseFlag_empty st : parseFlag "" st = (Done (∅, ∅), st).
Proof. reflexivity. Qed.

Lemma resolve_empty def name : resolve def ∅ ∅ name = def.
Proof.
  unfold resolve, scanOrder. by rewrite lookup_empty, sortedPrefixes_empty.
Qed.

Lemma setLevels_empty st root rest :
  levelVars st = root :: rest →
  setLevels "" st =
    (Done (), {| levelVars := root :: ((λ lv, setLevel lv (Level' root)) <$> rest);
                 lg := lg st |}).
Proof.
  intros Hvars.
  rewrite (setLevels_done "" st ∅ ∅ st root rest (parseFlag_empty st) Hvars).
  rewrite lookup_empty.
  rewrite (list_fmap_ext _ (λ lv, setLevel lv (Level' root)) rest); [done|].
  intros i lv _. by rewrite resolve_empty.
Qed.

(** C1, as the code has it: the empty flag keeps the default level, the
    names and the log, and puts every other cell at the default level.
    It changes no level exactly when every cell is at the default level
    already. *)
Theorem C1_empty_flag_resets_to_default st :
  Reachable st →
  ∃ root rest st',
    levelVars st = root :: rest ∧
    setLevels "" st = (Done (), st') ∧
    levelVars st' = root :: ((λ lv, setLevel lv (Level' root)) <$> rest) ∧
    lg st' = lg st ∧
    (levels st' = levels st ↔ Forall (λ lv, Level' lv = Level' root) rest).
Proof.
  intros (root & rest & Hvars & _)%Reachable_wf.
  eexists root, rest, _. split; [done|].
  split; [by apply setLevels_empty|]. split; [done|]. split; [done|].
  unfold levels. rewrite Hvars. simpl. rewrite <- list_fmap_compose.
  clear. induction rest as [|lv rest IH]; [by split; [constructor|]|].
  rewrite !fmap_cons, Forall_cons. simpl. split.
  - intros [= Hlv Hrest]. split; [done|]. apply IH. by f_equal.
  - intros [Hlv Hrest]. apply IH in Hrest. injection Hrest as Hrest.
    by rewrite Hlv, Hrest.
Qed.

Lemma C1_witness :
  ∃ root rest st',
    levelVars (setLevels "a=v1" (newVar "a" "" init).2).2 = root :: rest ∧
    setLevels "" (setLevels "a=v1" (newVar "a" "" init).2).2 = (Done (), st') ∧
    levelVars st' = root :: ((λ lv, setLevel lv (Level' root)) <$> rest) ∧
    lg st' = lg (setLevels "a=v1" (newVar "a" "" init).2).2 ∧
    (levels st' = levels (setLevels "a=v1" (newVar "a" "" init).2).2
     ↔ Forall (λ lv, Level' lv = Level' root) rest).
Proof.
  apply (C1_empty_flag_resets_to_default (setLevels "a=v1" (newVar "a" "" init).2).2).
  apply Reachable_setLevels, Reachable_newVar, Reachable_init.
Defined.

(** C1, as the spec has it, fails: after [a=v1] the cell [a] is at [v1]
    and the default is [info]; the empty flag puts [a] back to [info]. *)
Lemma C1_counterexample :
  ¬ (∀ st, Reachable st →
           ∀ st', setLevels "" st = (Done (), st') → levels st' = levels st).
Proof.
  intros H.
  specialize (H _ (Reachable_setLevels "a=v1" _
                     (Reachable_newVar "a" "" _ Reachable_init)) _ eq_refl).
  vm_compute in H. discriminate H.
Qed.

(** *** The order of the prefix rules *)

Lemma scanOrder_keys prefix :
  NoDup (scanOrder prefix) ∧ ∀ k, k ∈ scanOrder prefix ↔ is_Some (prefix !! k).
Proof.
  assert (scanOrder prefix ≡ₚ (map_to_list prefix).*1) as Hperm.
  { unfold scanOrder, sortedPrefixes.
    by rewrite reverse_Permutation, merge_sort_Permutation. }
  split.
  - rewrite Hperm. apply NoDup_fst_map_to_list.
  - intros k. rewrite Hperm, list_elem_of_fmap. split.
    + intros ([k' l] & -> & Hin). apply elem_of_map_to_list in Hin. by exists l.
    + intros [l Hl]. exists (k, l). split; [done|]. by apply elem_of_map_to_list.
Qed.

Lemma reverse_descending (l : list string) :
  StronglySorted String.le l → NoDup l → descending (reverse l).
Proof.
  unfold descending. induction 1 as [|x l Hsorted IH Hx]; [constructor|].
  intros [Hnotin Hnodup]%NoDup_cons. rewrite reverse_cons.
  apply StronglySorted_app. split; [|split; [by apply IH|repeat constructor]].
  intros y z Hy ->%list_elem_of_singleton. rewrite elem_of_reverse in Hy.
  rewrite Forall_forall in Hx. split; [by apply Hx|]. by intros ->.
Qed.

Lemma scanOrder_descending prefix : descending (scanOrder prefix).
Proof.
  unfold scanOrder. apply reverse_descending.
  - apply StronglySorted_merge_sort; apply _.
  - unfold sortedPrefixes. rewrite merge_sort_Permutation.
    apply NoDup_fst_map_to_list.
Qed.

(** C3: the inner loop of [setLevels] scans the prefixes, each once, in
    strictly descending bytewise order, and stops at the first that
    matches; a cell without an exact rule ends at the level of that
    prefix, or at the default when none matches.  The order is not by
    length: ["b/"] comes before the longer ["a/b/c/"]. *)
Theorem C3_prefixes_scanned_in_descending_order value st exact prefix st1 root rest :
  parseFlag value st = (Done (exact, prefix), st1) →
  levelVars st = root :: rest →
  (NoDup (scanOrder prefix) ∧ ∀ k, k ∈ scanOrder prefix ↔ is_Some (prefix !! k)) ∧
  descending (scanOrder prefix) ∧
  (∀ lv, scanPrefixes (sortedPrefixes prefix) prefix lv (length (sortedPrefixes prefix))
         = match List.find (prefixMatch (Name lv)) (scanOrder prefix) with
           | Some k => setLevel lv (prefix !!! k)
           | None => lv
           end) ∧
  (∃ root' st',
      setLevels value st = (Done (), st') ∧
      levelVars st' =
        root' :: ((λ lv, setLevel lv (resolve (Level' root') exact prefix (Name lv)))
                    <$> rest)) ∧
  scanOrder (<["b/" := v1]> {["a/b/c/" := v2]}) = ["b/"; "a/b/c/"].
Proof.
  intros Hparse Hvars.
  split; [apply scanOrder_keys|]. split; [apply scanOrder_descending|].
  split; [|split].
  - intros lv. unfold scanOrder. by rewrite scanPrefixes_find, firstn_all.
  - destruct (parseFlag_total value st)
      as [(msg & st' & Hp & Hst')|(exact' & prefix' & st' & Hp & Hst')];
      rewrite Hparse in Hp; [done|]. injection Hp as <- <- <-.
    rewrite <- Hst' in Hvars.
    eexists _, _. split; [by apply (setLevels_done value st exact prefix st1 root rest)|].
    done.
  - by vm_compute.
Qed.

Lemma C3_witness :
  (NoDup (scanOrder abPrefix) ∧
   ∀ k, k ∈ scanOrder abPrefix ↔ is_Some (abPrefix !! k)) ∧
  descending (scanOrder abPrefix) ∧
  (∀ lv, scanPrefixes (sortedPrefixes abPrefix) abPrefix lv
           (length (sortedPrefixes abPrefix))
         = match List.find (prefixMatch (Name lv)) (scanOrder abPrefix) with
           | Some k => setLevel lv (abPrefix !!! k)
           | None => lv
           end) ∧
  (∃ root' st',
      setLevels "*=e,a/*=v1,a/b/*=v2" abRegistry = (Done (), st') ∧
      levelVars st' =
        root' :: ((λ lv, setLevel lv (resolve (Level' root') ∅ abPrefix (Name lv)))
                    <$> tail (levelVars abRegistry))) ∧
  scanOrder (<["b/" := v1]> {["a/b/c/" := v2]}) = ["b/"; "a/b/c/"].
Proof.
  apply (C3_prefixes_scanned_in_descending_order "*=e,a/*=v1,a/b/*=v2"
           abRegistry ∅ abPrefix abRegistry
           {| Name := ""; File := ""; Level' := info |} (tail (levelVars abRegistry))).
  - vm_compute. reflexivity.
  - vm_compute. reflexivity.
Defined.

End Resolution.

(** * Errors of the configuration *)

Section ConfigErrors.

Implicit Types (name tok value rest r : string) (st : state).
Implicit Types (exact prefix : levelMap).

(** C4: a flag with a malformed rule among its rules makes [setLevels]
    panic; the panic leaves [setLevels] for its caller, and no level has
    been touched. *)
Theorem C4_malformed_rule_panics value r st :
  r ∈ rulesOf value → malformed r →
  ∃ msg st', setLevels value st = (Panic msg, st') ∧ levelVars st' = levelVars st.
Proof.
  intros Hin Hbad.
  destruct (parseFlag_loop_malformed (String.length value) value value r ∅ ∅ st)
    as (msg & st' & Hparse & Hst'); [done..|].
  exists msg, st'. split; [|done]. by apply setLevels_panic.
Qed.

Lemma C4_witness :
  ∃ msg st', setLevels "a=i,b*c=v1" init = (Panic msg, st')
             ∧ levelVars st' = levelVars init.
Proof.
  apply (C4_malformed_rule_panics "a=i,b*c=v1" "b*c=v1" init).
  - vm_compute. apply list_elem_of_further, list_elem_of_here.
  - right. exists "b*c", "v1". split; [reflexivity|]. split; [reflexivity|].
    left. exists "b", "c". split; [reflexivity|]. intros [H _]. discriminate H.
Defined.

Lemma tokenLevel_unknown tok : knownToken tok = false → tokenLevel tok = info.
Proof.
  unfold knownToken, tokenLevel, levelTokens. intros H%bool_decide_eq_false.
  rewrite !elem_of_cons, elem_of_nil in H.
  rewrite !bool_decide_eq_false_2; [done|..];
    rewrite !elem_of_cons, elem_of_nil; tauto.
Qed.

Lemma afterToken_unknown tok st :
  knownToken tok = false →
  afterToken tok st = logged (Format ["ignore invalid logging level=%s"; tok]) st.
Proof. intros H. unfold afterToken. by rewrite H. Qed.

(** C8: a level token that is not known costs one line in the log and
    counts as [info]; the rule, when its name is well formed, is recorded
    with that level and the loop goes on with the rules that follow, or
    ends with the two maps when none follows.  (A rule [name=tok] of
    ASCII text, cut at the commas and at the first [=].) *)
Theorem C8_unknown_token_is_soft tok fuel value name rest exact prefix st :
  isASCII tok = true → isASCII name = true →
  knownToken tok = false →
  hasByte "," name = false → hasByte "=" name = false →
  hasByte "," tok = false → wildcardOK name = true →
  parseLevel tok st
  = (Done info, logged (Format ["ignore invalid logging level=%s"; tok]) st) ∧
  parseFlag_loop (S fuel) value (name +:+ "=" +:+ tok +:+ "," +:+ rest) exact prefix st
  = parseFlag_loop fuel value rest
      (record name info (exact, prefix)).1 (record name info (exact, prefix)).2
      (logged (Format ["ignore invalid logging level=%s"; tok]) st) ∧
  parseFlag_loop (S fuel) value (name +:+ "=" +:+ tok) exact prefix st
  = (Done (record name info (exact, prefix)),
     logged (Format ["ignore invalid logging level=%s"; tok]) st).
Proof.
  intros _ _ Htok Hc He Hct Hok.
  assert (hasByte "," (name +:+ "=" +:+ tok) = false) as Hrule.
  { rewrite !hasByte_app, Hc, Hct. done. }
  split; [|split].
  - by rewrite parseLevel_spec, tokenLevel_unknown, afterToken_unknown.
  - assert (name +:+ "=" +:+ tok +:+ "," +:+ rest
            = (name +:+ "=" +:+ tok) +:+ "," +:+ rest) as Hs
      by (by rewrite !app_assoc).
    rewrite Hs, parseFlag_loop_step.
    + rewrite nextRule_comma by done. cbn [fst snd].
      rewrite parseFlag_rule_ok by done.
      by rewrite tokenLevel_unknown, afterToken_unknown.
    + intros H. apply app_eq_nil in H as [H _]. apply app_eq_nil in H as [_ H].
      discriminate H.
  - rewrite parseFlag_loop_step.
    + rewrite nextRule_last by done. cbn [fst snd].
      rewrite parseFlag_rule_ok by done.
      rewrite parseFlag_loop_nil, tokenLevel_unknown, afterToken_unknown by done.
      by destruct (record _ _ _).
    + intros H. apply app_eq_nil in H as [_ H]. discriminate H.
Qed.

Lemma C8_witness :
  parseLevel "loud" init
  = (Done info, logged (Format ["ignore invalid logging level=%s"; "loud"]) init) ∧
  parseFlag_loop 3 "a/*=loud,b=e" ("a/*" +:+ "=" +:+ "loud" +:+ "," +:+ "b=e") ∅ ∅ init
  = parseFlag_loop 2 "a/*=loud,b=e" "b=e"
      (record "a/*" info (∅, ∅)).1 (record "a/*" info (∅, ∅)).2
      (logged (Format ["ignore invalid logging level=%s"; "loud"]) init) ∧
  parseFlag_loop 3 "a/*=loud,b=e" ("a/*" +:+ "=" +:+ "loud") ∅ ∅ init
  = (Done (record "a/*" info (∅, ∅)),
     logged (Format ["ignore invalid logging level=%s"; "loud"]) init).
Proof.
  apply (C8_unknown_token_is_soft "loud" 2 "a/*=loud,b=e" "a/*" "b=e" ∅ ∅ init);
    reflexivity.
Defined.

End ConfigErrors.

(** * Export and round trip *)

Section RoundTrip.

Implicit Types (name value : string) (st : state) (lv : levelVar).
Implicit Types (vars rest : list levelVar) (exact prefix : levelMap).

Lemma Level_String_token (l : Level) :
  knownToken (Level_String l) = true ∧ tokenLevel (Level_String l) = l ∧
  hasByte "," (Level_String l) = false.
Proof. by destruct l. Qed.

Lemma exportable_spec name :
  exportable name = true →
  ToLower name = name ∧ hasByte "," name = false ∧ hasByte "=" name = false ∧
  hasByte "*" name = false ∧ TrimRight name "/" = name.
Proof.
  unfold exportable. rewrite !andb_true_iff, !negb_true_iff, !String.eqb_eq. tauto.
Qed.

Lemma noStar_isPrefixName name : hasByte "*" name = false → isPrefixName name = false.
Proof.
  intros Hstar. unfold isPrefixName. apply orb_false_iff. split.
  - apply String.eqb_neq. intros ->. discriminate Hstar.
  - apply not_true_iff_false. intros [p ->]%HasSuffix_spec.
    rewrite hasByte_app in Hstar. apply orb_false_iff in Hstar as [_ Hstar].
    discriminate Hstar.
Qed.

Lemma wildcardOK_exportable name : exportable name = true → wildcardOK name = true.
Proof.
  intros (Hlow & _ & _ & Hstar & _)%exportable_spec. unfold wildcardOK.
  rewrite Hlow. cbv zeta. by rewrite noStar_isPrefixName, Hstar.
Qed.

Lemma record_exportable name (l : Level) exact prefix :
  exportable name = true →
  record name l (exact, prefix) = (<[name := l]> exact, prefix).
Proof.
  intros (Hlow & _ & _ & Hstar & Htrim)%exportable_spec. unfold record.
  rewrite Hlow. cbv zeta. by rewrite noStar_isPrefixName, Htrim.
Qed.

(** The first rule of [name=level] followed by what [printLevelVars]
    prints for more cells. *)
Lemma nextRule_printed name (l : Level) rest :
  hasByte "," name = false →
  nextRule (name +:+ "=" +:+ Level_String l +:+ printRest rest)
  = (name +:+ "=" +:+ Level_String l, printTail rest).
Proof.
  intros Hname.
  assert (hasByte "," (name +:+ "=" +:+ Level_String l) = false) as Hrule.
  { rewrite !hasByte_app, Hname. by destruct l. }
  destruct rest as [|lv rest].
  - cbn [printRest printTail]. rewrite app_nil_r. by apply nextRule_last.
  - change (printRest (lv :: rest)) with ("," +:+ printTail (lv :: rest)).
    rewrite <- !app_assoc, (app_assoc name).
    by rewrite (app_assoc (name +:+ "=" +:+ Level_String l)), nextRule_comma.
Qed.

Lemma printed_nonempty name (l : Level) rest :
  name +:+ "=" +:+ Level_String l +:+ printRest rest ≠ "".
Proof. intros H. apply app_eq_nil in H as [_ H]. discriminate H. Qed.

Lemma parseFlag_loop_printTail value vars :
  Forall (λ lv, exportable (Name lv) = true) vars →
  ∀ fuel exact prefix st,
    (String.length (printTail vars) ≤ fuel)%nat →
    parseFlag_loop fuel value (printTail vars) exact prefix st
    = (Done (exactRules exact vars, prefix), st).
Proof.
  induction 1 as [|lv rest Hlv Hrest IH]; intros fuel exact prefix st Hfuel.
  { cbn [printTail]. by rewrite parseFlag_loop_nil. }
  pose proof (printed_nonempty (Name lv) (Level' lv) rest) as Hne.
  pose proof (nextRule_length _ Hne) as Hshort.
  destruct (exportable_spec _ Hlv) as (_ & Hcomma & Heq & _).
  cbn [printTail] in *. rewrite nextRule_printed in Hshort by done. cbn [snd] in Hshort.
  destruct fuel as [|fuel]; [lia|].
  rewrite parseFlag_loop_step, nextRule_printed by done. cbn [fst snd].
  rewrite parseFlag_rule_ok by auto using wildcardOK_exportable.
  destruct (Level_String_token (Level' lv)) as (Hknown & -> & _).
  rewrite record_exportable by done. cbn [fst snd].
  unfold afterToken. rewrite Hknown. rewrite IH by lia. done.
Qed.

Lemma exactRules_notin exact vars name :
  name ∉ Name <$> vars → exactRules exact vars !! name = exact !! name.
Proof.
  revert exact. induction vars as [|lv vars IH]; intros exact; [done|].
  rewrite fmap_cons, not_elem_of_cons. intros [Hne Hnotin].
  cbn [exactRules foldl]. fold (exactRules (<[Name lv := Level' lv]> exact) vars).
  rewrite IH by done. by rewrite lookup_insert_ne.
Qed.

Lemma exactRules_lookup exact vars lv :
  NoDup (Name <$> vars) → lv ∈ vars →
  exactRules exact vars !! Name lv = Some (Level' lv).
Proof.
  revert exact. induction vars as [|lv' vars IH]; intros exact.
  { intros _ H. by apply elem_of_nil in H. }
  rewrite fmap_cons. intros [Hnotin Hnodup]%NoDup_cons [->|Hin]%elem_of_cons;
    cbn [exactRules foldl]; fold (exactRules (<[Name lv' := Level' lv']> exact) vars).
  - rewrite exactRules_notin by done. by rewrite lookup_insert_eq.
  - by apply IH.
Qed.

Lemma parseFlag_loop_printed fuel value (l : Level) rest st :
  Forall (λ lv, exportable (Name lv) = true) rest →
  (String.length (printTail rest) ≤ fuel)%nat →
  parseFlag_loop (S fuel) value ("*" +:+ "=" +:+ Level_String l +:+ printRest rest) ∅ ∅ st
  = (Done (exactRules ∅ rest, <["/" := l]> ∅), st).
Proof.
  intros Hrest Hfuel.
  rewrite parseFlag_loop_step, nextRule_printed by (done || apply printed_nonempty).
  cbn [fst snd]. rewrite parseFlag_rule_ok by done.
  destruct (Level_String_token l) as (Hknown & -> & _).
  unfold afterToken. rewrite Hknown.
  change (record "*" l (∅, ∅)) with ((∅ : levelMap), <["/" := l]> (∅ : levelMap)).
  cbn [fst snd]. by rewrite parseFlag_loop_printTail.
Qed.

(** What [parseFlag] makes of an export. *)
Lemma parseFlag_printed (l : Level) rest st :
  Forall (λ lv, exportable (Name lv) = true) rest →
  parseFlag ("*=" +:+ Level_String l +:+ printRest rest) st
  = (Done (exactRules ∅ rest, <["/" := l]> ∅), st).
Proof.
  intros Hrest. unfold parseFlag.
  change ("*=" +:+ Level_String l +:+ printRest rest)
    with ("*" +:+ "=" +:+ Level_String l +:+ printRest rest).
  pose proof (nextRule_length _ (printed_nonempty "*" l rest)) as Hshort.
  rewrite nextRule_printed in Hshort by done. cbn [snd] in Hshort.
  set (value := "*" +:+ "=" +:+ Level_String l +:+ printRest rest) in *.
  destruct (String.length value) as [|fuel] eqn:Hlen; [lia|].
  apply parseFlag_loop_printed; [done|lia].
Qed.

(** C5, as the code has it: when every registered name can be spelled
    as an exact rule, the export is accepted with nothing logged and
    leaves the registry as it was, every level included. *)
Theorem C5_round_trip_of_exportable_names st :
  Reachable st →
  Forall (λ lv, exportable (Name lv) = true) (tail (levelVars st)) →
  roundTrip st = (Done (), st) ∧
  ∀ st', roundTrip st = (Done (), st') → levels st' = levels st.
Proof.
  intros (root & rest & Hvars & Hroot & Hnodup & Hne)%Reachable_wf Hnames.
  rewrite Hvars in Hnames. cbn [tail] in Hnames.
  assert (roundTrip st = (Done (), st)) as Hrt; [|split; [done|]].
  2: { intros st'. rewrite Hrt. by intros [= <-]. }
  unfold roundTrip, printLevelVars. rewrite !bind_run. unfold getLevelVars.
  rewrite Hvars. cbn [mret ST_ret].
  rewrite (setLevels_done _ st _ _ st root rest (parseFlag_printed _ _ _ Hnames) Hvars).
  rewrite lookup_insert_eq, setLevel_id.
  rewrite (list_fmap_ext _ id rest).
  - rewrite list_fmap_id. destruct st as [vars log]. simpl in *. by subst.
  - intros i lv Hi. apply list_elem_of_lookup_2 in Hi.
    unfold resolve. rewrite exactRules_lookup by done. apply setLevel_id.
Qed.

Lemma C5_witness :
  roundTrip ((registerAll ["a"; "a/b"];; setLevels "*=e,a/*=v1") init).2
  = (Done (), ((registerAll ["a"; "a/b"];; setLevels "*=e,a/*=v1") init).2) ∧
  ∀ st', roundTrip ((registerAll ["a"; "a/b"];; setLevels "*=e,a/*=v1") init).2
         = (Done (), st') →
         levels st' = levels ((registerAll ["a"; "a/b"];; setLevels "*=e,a/*=v1") init).2.
Proof.
  apply (C5_round_trip_of_exportable_names
           ((registerAll ["a"; "a/b"];; setLevels "*=e,a/*=v1") init).2).
  - apply (Reachable_setLevels "*=e,a/*=v1" _
             (Reachable_newVar "a/b" "" _ (Reachable_newVar "a" "" _ Reachable_init))).
  - vm_compute. repeat constructor.
Defined.

(** C5, as the spec has it, fails: with the default at [err], a cell
    registered as ["A"] holds [info]; the export spells it [A=info], the
    parser reads the name as [a], and the cell ["A"] ends at [err]. *)
Lemma C5_counterexample :
  ¬ (∀ st, Reachable st →
           ∀ st', roundTrip st = (Done (), st') → levels st' = levels st).
Proof.
  intros H.
  specialize (H _ (Reachable_newVar "A" "" _
                     (Reachable_setLevels "*=e" _ Reachable_init)) _ eq_refl).
  vm_compute in H. discriminate H.
Qed.

End RoundTrip.

(** * The rotating logger *)

Import RotateLog.

Section Rotation.

Variables logPrefixSize logLimit : Z.
Variable os_Create : Z → bool.

Implicit Types (s : string) (rl : rotateLogger).

Lemma wrap_small z : minInt ≤ z ≤ maxInt → wrap z = z.
Proof.
  unfold wrap, minInt, maxInt, intSize. intros Hz.
  rewrite Z.mod_small; lia.
Qed.

(** One turn of the loop. *)
Lemma Log_loop_turn fuel s rl :
  Log_loop logPrefixSize logLimit os_Create (S fuel) s rl =
    let n := wrap (nbytes rl + wrap (logPrefixSize + len s)) in
    if (0 <? nbytes rl) && (logLimit <? n) then
      if os_Create (nextID rl) then
        Log_loop logPrefixSize logLimit os_Create fuel s
          {| prefix := prefix rl; nbytes := 0; nextID := wrap (nextID rl + 1);
             f := Some (nextID rl); files := <[nextID rl := []]> (files rl) |}
      else (Panic "create log file", withNbytes n rl)
    else Output s (withNbytes n rl).
Proof.
  cbn [RotateLog.Log_loop]. unfold mbind, ST_bind, get, setNbytes, rotate, withNbytes.
  cbn [nbytes nextID prefix f files]. cbv zeta.
  destruct (_ && _); [|done].
  cbn beta. cbn [nbytes nextID prefix f files].
  by destruct (os_Create (nextID rl)).
Qed.

(** Two turns are all the loop takes: after a rotation [nbytes] is 0 and
    the limit is not checked. *)
Lemma Log_loop_two_turns k s rl :
  Log_loop logPrefixSize logLimit os_Create (2 + k) s rl
  = LogUnrolled logPrefixSize logLimit os_Create s rl.
Proof.
  change (2 + k)%nat with (S (S k)). rewrite Log_loop_turn.
  unfold LogUnrolled. cbv zeta.
  destruct (_ && _).
  - destruct (os_Create (nextID rl)); [|done].
    rewrite Log_loop_turn. cbn [nbytes nextID prefix f files andb Z.ltb Z.compare].
    cbv zeta. unfold Output, withNbytes, rotatedWith. cbn [nbytes nextID prefix f files].
    by rewrite lookup_total_insert_eq, insert_insert_eq.
  - unfold Output, writtenWith, withNbytes. cbn [nbytes nextID prefix f files].
    by destruct (f rl).
Qed.

Lemma Log_unrolled s rl :
  Log logPrefixSize logLimit os_Create s rl
  = LogUnrolled logPrefixSize logLimit os_Create s rl.
Proof. apply (Log_loop_two_turns 0). Qed.

Lemma size_insert_le (id : Z) (l : list string) (m : gmap Z (list string)) :
  (size (<[id := l]> m) ≤ S (size m))%nat.
Proof.
  destruct (m !! id) eqn:Hid.
  - rewrite map_size_insert_Some; [lia|done].
  - rewrite map_size_insert_None; [lia|done].
Qed.

(** C10: whatever the fuel beyond two turns, the loop of [Log] ends as
    [Log] does and never out of fuel: [Log] is one check of the limit, at
    most one rotation and one write ([LogUnrolled]).  At most one file is
    created and [nextID] moves by one step at most.  After a rotation the
    line goes to the new file whatever its size, the limit being checked
    against a positive [nbytes] only. *)
Theorem C10_Log_ends_after_at_most_one_rotation k s rl :
  Log_loop logPrefixSize logLimit os_Create (2 + k) s rl
  = Log logPrefixSize logLimit os_Create s rl ∧
  Log logPrefixSize logLimit os_Create s rl
  = LogUnrolled logPrefixSize logLimit os_Create s rl ∧
  (Log logPrefixSize logLimit os_Create s rl).1 ≠ OutOfFuel ∧
  (size (files (Log logPrefixSize logLimit os_Create s rl).2) ≤ S (size (files rl)))%nat ∧
  (nextID (Log logPrefixSize logLimit os_Create s rl).2 = nextID rl ∨
   nextID (Log logPrefixSize logLimit os_Create s rl).2 = wrap (nextID rl + 1)).
Proof.
  split; [by rewrite Log_loop_two_turns, Log_unrolled|].
  split; [apply Log_unrolled|].
  rewrite Log_unrolled. unfold LogUnrolled, writtenWith, rotatedWith, withNbytes.
  cbv zeta.
  destruct (_ && _).
  - destruct (os_Create (nextID rl)); cbn [fst snd files nextID].
    + repeat split; [done|apply size_insert_le|by right].
    + repeat split; [done|lia|by left].
  - destruct (f rl) as [id|]; cbn [fst snd files nextID].
    + repeat split; [done|apply size_insert_le|by left].
    + repeat split; [done|lia|by left].
Qed.

(** As long as the byte count and the sequence number stay within an
    [int], [Log] is the transition of the spec. *)
Lemma Log_LogSpec s rl :
  0 ≤ logPrefixSize → 0 ≤ nbytes rl →
  nbytes rl + (logPrefixSize + len s) ≤ maxInt →
  0 ≤ nextID rl < maxInt →
  Log logPrefixSize logLimit os_Create s rl
  = LogSpec logPrefixSize logLimit os_Create s rl.
Proof.
  intros HP Hn Hsum Hid. pose proof (len_nonneg s) as Hlen.
  rewrite Log_unrolled. unfold LogUnrolled, LogSpec. cbv zeta.
  assert (minInt ≤ 0) as Hmin by (unfold minInt, intSize; lia).
  rewrite (wrap_small (logPrefixSize + len s)) by lia.
  rewrite (wrap_small (nbytes rl + _)) by lia.
  rewrite (wrap_small (0 + _)) by lia.
  rewrite (wrap_small (nextID rl + 1)) by lia.
  done.
Qed.

End Rotation.

(** C7: as long as the byte count and the sequence number stay within an
    [int], [Log] is the transition of the spec ([LogSpec]): it rotates
    exactly when [nbytes > 0] and [nbytes + (logPrefixSize + len(s))] is
    over [logLimit]; the rotation takes the sequence number up by 1 and
    the line is the first of the new file, counted from 0.  In the run of
    the test, with a limit of 180 bytes and 50 bytes counted per record,
    ["a"] and ["bc"] share the first file; 128 more bytes and then
    ["def"] open a second and a third. *)
Theorem C7_rotation_condition_and_file_count
    (logPrefixSize logLimit : Z) (os_Create : Z → bool) (s : string) (rl : rotateLogger) :
  0 ≤ logPrefixSize → 0 ≤ nbytes rl →
  nbytes rl + (logPrefixSize + len s) ≤ maxInt →
  0 ≤ nextID rl < maxInt →
  Log logPrefixSize logLimit os_Create s rl
  = LogSpec logPrefixSize logLimit os_Create s rl ∧
  (let '(r0, r1, r2) := testRun in
   r0.1 = Done () ∧ r1.1 = Done () ∧ r2.1 = Done () ∧
   size (files r1.2) = 1%nat ∧ nextID r1.2 = 1 ∧
   size (files r2.2) = 3%nat ∧ nextID r2.2 = 3 ∧
   files r2.2 = <[2 := ["def"]]> (<[1 := [zeros 128]]> {[0 := ["a"; "bc"]]})).
Proof.
  intros HP Hn Hsum Hid. split; [by apply Log_LogSpec|].
  vm_compute. repeat split; done.
Qed.

Lemma C7_witness :
  Log 50 180 (λ _, true) (zeros 128)
    {| prefix := "p"; nbytes := 103; nextID := 1; f := Some 0;
       files := {[0 := ["a"; "bc"]]} |}
  = LogSpec 50 180 (λ _, true) (zeros 128)
      {| prefix := "p"; nbytes := 103; nextID := 1; f := Some 0;
         files := {[0 := ["a"; "bc"]]} |} ∧
  (let '(r0, r1, r2) := testRun in
   r0.1 = Done () ∧ r1.1 = Done () ∧ r2.1 = Done () ∧
   size (files r1.2) = 1%nat ∧ nextID r1.2 = 1 ∧
   size (files r2.2) = 3%nat ∧ nextID r2.2 = 3 ∧
   files r2.2 = <[2 := ["def"]]> (<[1 := [zeros 128]]> {[0 := ["a"; "bc"]]})).
Proof.
  apply (C7_rotation_condition_and_file_count 50 180 (λ _, true) (zeros 128)
           {| prefix := "p"; nbytes := 103; nextID := 1; f := Some 0;
              files := {[0 := ["a"; "bc"]]} |}).
  - lia.
  - simpl. lia.
  - vm_compute. intros H. discriminate H.
  - split; [simpl; lia|reflexivity].
Defined.
